(** * Font control sequences and the context they update

    A shallow embedding of [control.py]: the rendering context
    ([FontContext]), the control records ([FontControl*]), the sequence
    expander ([FontControlSequence]) and the parser ([FontControlParser]),
    followed by the properties established about them.

    Conventions of the embedding.
    - Python integers are unbounded, so they are [Z].
    - [bytes] and [bytearray] values are [list byte]; the code is read with
      the semantics of Python 3, where indexing or iterating a bytes value
      gives integers and an integer never equals a bytes value.
    - A method that mutates [self] becomes a function returning the new
      record; an exception becomes the [Raise] case of [result].
    - [riscos.graphics.structs] (Matrix and Bounds) is not part of the
      sources: it is the interface [Structs].  The methods a managing system
      may replace are the interface [Hooks].
    - Coordinates are kept in [Z] (millipoints) and the two underline metrics,
      which the code computes as [value * (y1 / 256.0)], are exact rationals. *)

From Stdlib Require Import QArith ZArith List Bool Lia.
From Stdlib Require Import Strings.Byte.
Import ListNotations.
Open Scope Z_scope.

(** ** Python values used by the code *)

Definition bytes := list byte.

Definition byte_val (b : byte) : Z := Z.of_N (Byte.to_N b).

Definition len {A} (l : list A) : Z := Z.of_nat (length l).

(** The two exceptions the parser and the sizer can meet: [struct.error] from
    [struct.unpack] on a short buffer, and [TypeError] from arithmetic or an
    ordering comparison on [None]. *)
Inductive PyExn := StructError | TypeError.

Inductive result (A : Type) : Type :=
| Ok (a : A)
| Raise (e : PyExn).
Arguments Ok {A} a.
Arguments Raise {A} e.

Definition bind {A B} (r : result A) (k : A -> result B) : result B :=
  match r with
  | Ok a => k a
  | Raise e => Raise e
  end.

Notation "x <- r ;; k" := (bind r (fun x => k))
  (at level 61, r at next level, right associativity).
Notation "' p <- r ;; k" := (bind r (fun p => k))
  (at level 61, p pattern, r at next level, right associativity).

(** A value that is an integer or a bytes value, for the comparisons the code
    makes between the two. [py_eq] is [==]: values of different types are
    never equal. *)
Inductive PyVal :=
| PyInt (z : Z)
| PyBytes (s : bytes).

Fixpoint bytes_eqb (s t : bytes) : bool :=
  match s, t with
  | [], [] => true
  | a :: s', b :: t' => Byte.eqb a b && bytes_eqb s' t'
  | _, _ => false
  end.

Definition py_eq (u v : PyVal) : bool :=
  match u, v with
  | PyInt a, PyInt b => a =? b
  | PyBytes s, PyBytes t => bytes_eqb s t
  | _, _ => false
  end.

(** ** riscos.graphics.structs *)

(** The [array] argument the parser passes to [Matrix]: the first four
    entries are [word / 65536.0] and are kept as the word itself (the
    numerator over 65536); the last two are passed as read, so they can be
    [None]. *)
Record MatrixArray := {
  ma_a : Z; ma_b : Z; ma_c : Z; ma_d : Z;
  ma_e : option Z; ma_f : option Z
}.

Class Structs := {
  Matrix : Type;
  Bounds : Type;
  (** [Matrix(ro)] *)
  Matrix_new : Matrix;
  (** [Matrix(None, array=...)] *)
  Matrix_array : MatrixArray -> Matrix;
  (** truth value of a matrix *)
  Matrix_bool : Matrix -> bool;
  Matrix_bbox : Matrix -> Z -> Z -> Z -> Z -> Z * Z * Z * Z;
  Matrix_apply : Matrix -> Z -> Z -> Z * Z;
  (** [Bounds(ro)] *)
  Bounds_new : Bounds;
  (** [bounds += (x0, y0, x1, y1)] *)
  Bounds_iadd : Bounds -> Z * Z * Z * Z -> Bounds
}.

Module SpecStructs.

(** Modelled from the spec: the Matrix class of riscos.graphics.structs, which
    is not among the sources. Point application is
    [(x, y) -> (a*x + c*y + e, b*x + d*y + f)]; [a], [b], [c], [d] are 16.16
    fixed-point numerators, so the products are shifted right by 16 bits
    (divided by 65536, exact whenever they are multiples of it). A
    translation entry that was never read counts as 0. *)
Definition translation (o : option Z) : Z :=
  match o with Some v => v | None => 0 end.

Definition apply (m : MatrixArray) (px py : Z) : Z * Z :=
  (Z.shiftr (ma_a m * px + ma_c m * py) 16 + translation (ma_e m),
   Z.shiftr (ma_b m * px + ma_d m * py) 16 + translation (ma_f m)).

(** Modelled from the spec: the bounding box of a transformed rectangle is
    the axis-aligned envelope of its four transformed corners. *)
Definition bbox (m : MatrixArray) (x0 y0 x1 y1 : Z) : Z * Z * Z * Z :=
  let '(ax, ay) := apply m x0 y0 in
  let '(bx, by_) := apply m x1 y0 in
  let '(cx, cy) := apply m x0 y1 in
  let '(dx, dy) := apply m x1 y1 in
  (Z.min (Z.min ax bx) (Z.min cx dx), Z.min (Z.min ay by_) (Z.min cy dy),
   Z.max (Z.max ax bx) (Z.max cx dx), Z.max (Z.max ay by_) (Z.max cy dy)).

Definition identity : MatrixArray :=
  {| ma_a := 65536; ma_b := 0; ma_c := 0; ma_d := 65536;
     ma_e := Some 0; ma_f := Some 0 |}.

(** Modelled from the spec: a transform is falsy iff a = d = 1,
    b = c = e = f = 0. *)
Definition truthy (m : MatrixArray) : bool :=
  negb ((ma_a m =? 65536) && (ma_b m =? 0) && (ma_c m =? 0) &&
        (ma_d m =? 65536) && (translation (ma_e m) =? 0) &&
        (translation (ma_f m) =? 0)).

(** Modelled from the spec: the Bounds class of riscos.graphics.structs, an
    axis-aligned rectangle or the empty bound, with union; empty is the
    identity of union. *)
Definition rect := option (Z * Z * Z * Z).

Definition union (b : rect) (r : Z * Z * Z * Z) : rect :=
  match b with
  | None => Some r
  | Some (x0, y0, x1, y1) =>
      let '(u0, v0, u1, v1) := r in
      Some (Z.min x0 u0, Z.min y0 v0, Z.max x1 u1, Z.max y1 v1)
  end.

End SpecStructs.

#[export] Instance spec_structs : Structs := {|
  Matrix := MatrixArray;
  Bounds := SpecStructs.rect;
  Matrix_new := SpecStructs.identity;
  Matrix_array := fun a => a;
  Matrix_bool := SpecStructs.truthy;
  Matrix_bbox := SpecStructs.bbox;
  Matrix_apply := SpecStructs.apply;
  Bounds_new := None;
  Bounds_iadd := SpecStructs.union
|}.

(** ** FontBase, FontSpacing *)

Inductive FontBase := FontBase_init (font_handle : Z).

Record FontSpacing := {
  word_xoffset : Z;
  word_yoffset : Z;
  char_xoffset : Z;
  char_yoffset : Z
}.

(** [FontSpacing(word, char)]; a tuple of two is truthy, [None] is not. *)
Definition FontSpacing_init (word char : option (Z * Z)) : FontSpacing :=
  {| word_xoffset := match word with Some (wx, _) => wx | None => 0 end;
     word_yoffset := match word with Some (_, wy) => wy | None => 0 end;
     char_xoffset := match char with Some (cx, _) => cx | None => 0 end;
     char_yoffset := match char with Some (_, cy) => cy | None => 0 end |}.

Definition truthy (v : Z) : bool := negb (v =? 0).

Definition FontSpacing_bool (s : FontSpacing) : bool :=
  negb (word_xoffset s =? 0) || negb (word_yoffset s =? 0) ||
  negb (char_xoffset s =? 0) || negb (char_yoffset s =? 0).

(** Truth value of the [spacing] argument, which may be [None]. *)
Definition spacing_bool (s : option FontSpacing) : bool :=
  match s with
  | Some sp => FontSpacing_bool sp
  | None => false
  end.

(** ** FontContext: the rendering state *)

Section Context_state.

Context {structs : Structs}.

Record FontContext := {
  (* Maximum colour number (used for GCOL bounding) *)
  maxcol : Z;
  (* Colour range for SetFontColours *)
  bg : Z;
  fgbase : Z;
  fgoffset : Z;
  (* Logical colour numbers and palette values *)
  fg : Z;
  fgpal : Z;
  bgpal : Z;
  (* The current font we're using *)
  font_handle : Z;
  font : option FontBase;
  (* Underline position and thickness *)
  underline_pos : Q;
  underline_thickness : Q;
  (* Rendering matrix *)
  transform : Matrix;
  (* Rendering location *)
  x : Z;
  y : Z;
  (* Bounds for sizing *)
  limitx : option Z;
  limity : option Z;
  (* Current bounds *)
  bounds : Bounds
}.

Definition FontContext_init : FontContext :=
  {| maxcol := 7;
     bg := 0; fgbase := 0; fgoffset := 0;
     fg := 0; fgpal := 0x00000010; bgpal := 0x00000010;
     font_handle := 0; font := None;
     underline_pos := 0%Q; underline_thickness := 0%Q;
     transform := Matrix_new;
     x := 0; y := 0;
     limitx := None; limity := None;
     bounds := Bounds_new |}.

(** Assignments to one attribute of the context. *)

Definition set_bg (c : FontContext) (v : Z) : FontContext :=
  {| maxcol := maxcol c; bg := v; fgbase := fgbase c; fgoffset := fgoffset c;
     fg := fg c; fgpal := fgpal c; bgpal := bgpal c;
     font_handle := font_handle c; font := font c;
     underline_pos := underline_pos c;
     underline_thickness := underline_thickness c;
     transform := transform c; x := x c; y := y c;
     limitx := limitx c; limity := limity c; bounds := bounds c |}.

Definition set_fgbase (c : FontContext) (v : Z) : FontContext :=
  {| maxcol := maxcol c; bg := bg c; fgbase := v; fgoffset := fgoffset c;
     fg := fg c; fgpal := fgpal c; bgpal := bgpal c;
     font_handle := font_handle c; font := font c;
     underline_pos := underline_pos c;
     underline_thickness := underline_thickness c;
     transform := transform c; x := x c; y := y c;
     limitx := limitx c; limity := limity c; bounds := bounds c |}.

Definition set_fgoffset (c : FontContext) (v : Z) : FontContext :=
  {| maxcol := maxcol c; bg := bg c; fgbase := fgbase c; fgoffset := v;
     fg := fg c; fgpal := fgpal c; bgpal := bgpal c;
     font_handle := font_handle c; font := font c;
     underline_pos := underline_pos c;
     underline_thickness := underline_thickness c;
     transform := transform c; x := x c; y := y c;
     limitx := limitx c; limity := limity c; bounds := bounds c |}.

Definition set_fg (c : FontContext) (v : Z) : FontContext :=
  {| maxcol := maxcol c; bg := bg c; fgbase := fgbase c;
     fgoffset := fgoffset c;
     fg := v; fgpal := fgpal c; bgpal := bgpal c;
     font_handle := font_handle c; font := font c;
     underline_pos := underline_pos c;
     underline_thickness := underline_thickness c;
     transform := transform c; x := x c; y := y c;
     limitx := limitx c; limity := limity c; bounds := bounds c |}.

Definition set_fgpal (c : FontContext) (v : Z) : FontContext :=
  {| maxcol := maxcol c; bg := bg c; fgbase := fgbase c;
     fgoffset := fgoffset c;
     fg := fg c; fgpal := v; bgpal := bgpal c;
     font_handle := font_handle c; font := font c;
     underline_pos := underline_pos c;
     underline_thickness := underline_thickness c;
     transform := transform c; x := x c; y := y c;
     limitx := limitx c; limity := limity c; bounds := bounds c |}.

Definition set_bgpal (c : FontContext) (v : Z) : FontContext :=
  {| maxcol := maxcol c; bg := bg c; fgbase := fgbase c;
     fgoffset := fgoffset c;
     fg := fg c; fgpal := fgpal c; bgpal := v;
     font_handle := font_handle c; font := font c;
     underline_pos := underline_pos c;
     underline_thickness := underline_thickness c;
     transform := transform c; x := x c; y := y c;
     limitx := limitx c; limity := limity c; bounds := bounds c |}.

Definition set_font (c : FontContext) (h : Z) (f : option FontBase)
  : FontContext :=
  {| maxcol := maxcol c; bg := bg c; fgbase := fgbase c;
     fgoffset := fgoffset c;
     fg := fg c; fgpal := fgpal c; bgpal := bgpal c;
     font_handle := h; font := f;
     underline_pos := underline_pos c;
     underline_thickness := underline_thickness c;
     transform := transform c; x := x c; y := y c;
     limitx := limitx c; limity := limity c; bounds := bounds c |}.

Definition set_underline (c : FontContext) (pos thickness : Q)
  : FontContext :=
  {| maxcol := maxcol c; bg := bg c; fgbase := fgbase c;
     fgoffset := fgoffset c;
     fg := fg c; fgpal := fgpal c; bgpal := bgpal c;
     font_handle := font_handle c; font := font c;
     underline_pos := pos;
     underline_thickness := thickness;
     transform := transform c; x := x c; y := y c;
     limitx := limitx c; limity := limity c; bounds := bounds c |}.

Definition set_transform (c : FontContext) (m : Matrix) : FontContext :=
  {| maxcol := maxcol c; bg := bg c; fgbase := fgbase c;
     fgoffset := fgoffset c;
     fg := fg c; fgpal := fgpal c; bgpal := bgpal c;
     font_handle := font_handle c; font := font c;
     underline_pos := underline_pos c;
     underline_thickness := underline_thickness c;
     transform := m; x := x c; y := y c;
     limitx := limitx c; limity := limity c; bounds := bounds c |}.

Definition set_xy (c : FontContext) (vx vy : Z) : FontContext :=
  {| maxcol := maxcol c; bg := bg c; fgbase := fgbase c;
     fgoffset := fgoffset c;
     fg := fg c; fgpal := fgpal c; bgpal := bgpal c;
     font_handle := font_handle c; font := font c;
     underline_pos := underline_pos c;
     underline_thickness := underline_thickness c;
     transform := transform c; x := vx; y := vy;
     limitx := limitx c; limity := limity c; bounds := bounds c |}.

Definition set_limits (c : FontContext) (lx ly : option Z) : FontContext :=
  {| maxcol := maxcol c; bg := bg c; fgbase := fgbase c;
     fgoffset := fgoffset c;
     fg := fg c; fgpal := fgpal c; bgpal := bgpal c;
     font_handle := font_handle c; font := font c;
     underline_pos := underline_pos c;
     underline_thickness := underline_thickness c;
     transform := transform c; x := x c; y := y c;
     limitx := lx; limity := ly; bounds := bounds c |}.

Definition set_bounds (c : FontContext) (b : Bounds) : FontContext :=
  {| maxcol := maxcol c; bg := bg c; fgbase := fgbase c;
     fgoffset := fgoffset c;
     fg := fg c; fgpal := fgpal c; bgpal := bgpal c;
     font_handle := font_handle c; font := font c;
     underline_pos := underline_pos c;
     underline_thickness := underline_thickness c;
     transform := transform c; x := x c; y := y c;
     limitx := limitx c; limity := limity c; bounds := b |}.

Definition clear_bounds (self : FontContext) : FontContext :=
  set_bounds self Bounds_new.

Definition clear_transform (self : FontContext) : FontContext :=
  set_transform self Matrix_new.

Definition clear_underline (self : FontContext) : FontContext :=
  set_underline self 0%Q 0%Q.

(** [copy] assigns every attribute of [self] to the target (the bounds
    through [Bounds.copy]), so the target becomes equal to [self]. *)
Definition copy (self : FontContext) : FontContext := self.

(** Limit a value to the given min and max. *)
Definition saturate (value vmin vmax : Z) : Z :=
  Z.max (Z.min value vmax) vmin.

(** The methods of [FontContext] a managing system replaces. The colour
    conversions are functions of the colour alone; [font_bounds] reports the
    size of a string, or of the font for [None], applying the context. *)
Class Hooks := {
  gcol_to_rgb : Z -> Z;
  rgb_to_gcol : Z -> Z;
  font_bounds : FontContext -> option bytes -> Z * Z * Z * Z * Z * Z
}.

(** The stubs of [FontContext] itself: 1 bit each of R, G and B. *)
Definition stub_gcol_to_rgb (gcol : Z) : Z :=
  let r := if truthy (Z.land gcol 1) then Z.shiftl 255 8 else 0 in
  let g := if truthy (Z.land gcol 2) then Z.shiftl 255 16 else 0 in
  let b := if truthy (Z.land gcol 4) then Z.shiftl 255 24 else 0 in
  Z.lor (Z.lor (Z.lor r g) b) 0x10.

Definition stub_rgb_to_gcol (rgb : Z) : Z :=
  Z.lor (Z.lor (Z.land (Z.shiftr rgb 15) 1) (Z.land (Z.shiftr rgb 22) 2))
        (Z.land (Z.shiftr rgb 29) 4).

Definition stub_font_bounds (self : FontContext) (s : option bytes)
  : Z * Z * Z * Z * Z * Z := (0, 0, 0, 0, 0, 0).

Definition stub_hooks : Hooks :=
  {| gcol_to_rgb := stub_gcol_to_rgb;
     rgb_to_gcol := stub_rgb_to_gcol;
     font_bounds := stub_font_bounds |}.

Context {hooks : Hooks}.

(** GCOL values have updated; bound and set up RGB. *)
Definition _gcol_updated (self : FontContext) : FontContext :=
  let self := set_bg self (saturate (bg self) 0 (maxcol self)) in
  let self := set_fg self (saturate (fg self) 0 (maxcol self)) in
  let self :=
    set_fgbase self (saturate (fg self - fgoffset self) 0 (maxcol self)) in
  let self := set_fgoffset self (fg self - fgbase self) in
  let self := set_fgpal self (gcol_to_rgb (fg self)) in
  let self := set_bgpal self (gcol_to_rgb (bg self)) in
  self.

(** Update the GCOL values for the RGB values that have been selected. *)
Definition _rgb_updated (self : FontContext) : FontContext :=
  let self := set_bg self (rgb_to_gcol (bgpal self)) in
  let self := set_fg self (rgb_to_gcol (fgpal self)) in
  let self := set_fgbase self (fg self - fgoffset self) in
  _gcol_updated self.

(** [font_lookup] of the base class builds [font_class(ro, font_handle)]. *)
Definition font_lookup (self : FontContext) (handle : Z) : FontBase :=
  FontBase_init handle.

Definition select_font (self : FontContext) (handle : Z) : FontContext :=
  set_font self handle (Some (font_lookup self handle)).

Definition is_some {A} (o : option A) : bool :=
  match o with Some _ => true | None => false end.

(** Select colours for rendering. An argument left out is [None]. *)
Definition select_colour (self : FontContext)
  (bg_ fg_ fgoffset_ bgpal_ fgpal_ : option Z) : FontContext :=
  let gcol_changed := false in
  let rgb_changed := false in
  let '(self, gcol_changed) :=
    match fg_ with
    | Some v => (set_fgbase self v, true)
    | None => (self, gcol_changed)
    end in
  let '(self, gcol_changed) :=
    match bg_ with
    | Some v => (set_bg self v, true)
    | None => (self, gcol_changed)
    end in
  let self :=
    match fgoffset_ with
    | Some v => set_fgoffset self v
    | None => self
    end in
  let self :=
    if gcol_changed || is_some fgoffset_
    then set_fg self (fgbase self + fgoffset self)
    else self in
  let self := if gcol_changed then _gcol_updated self else self in
  let '(self, rgb_changed) :=
    match fgpal_ with
    | Some v => (set_fgpal self v, true)
    | None => (self, rgb_changed)
    end in
  let '(self, rgb_changed) :=
    match bgpal_ with
    | Some v => (set_bgpal self v, true)
    | None => (self, rgb_changed)
    end in
  if rgb_changed then _rgb_updated self else self.

(** The palette invariant of the colour state. *)
Definition palette_invariant (c : FontContext) : Prop :=
  fg c = saturate (fgbase c + fgoffset c) 0 (maxcol c) /\
  0 <= fg c <= maxcol c /\
  0 <= bg c <= maxcol c.

(** ** The control records *)

(** Every record carries [index_start] and [index_end]. The embedding does
    not tell a [bytearray] from the [bytes] that [FontControlString.size]
    replaces it with: both are the same list of bytes. *)
Inductive FontControl :=
| FontControlString (index_start index_end : Z) (string_ : bytes)
| FontControlMove (index_start index_end : Z) (dx dy : Z)
| FontControlMatrix (index_start index_end : Z) (matrix : Matrix)
| FontControlGCOL (index_start index_end : Z) (fg_ bg_ offset : option Z)
| FontControlRGB (index_start index_end : Z) (fg_ bg_ offset : option Z)
| FontControlComment (index_start index_end : Z) (comment : bytes)
| FontControlUnderline (index_start index_end : Z) (pos thickness : Z)
| FontControlFont (index_start index_end : Z) (handle : Z)
| FontControlMoveCharacter (index_start index_end : Z) (dx dy : Z)
| FontControlMoveSpace (index_start index_end : Z) (dx dy : Z).

Definition index_start (ctrl : FontControl) : Z :=
  match ctrl with
  | FontControlString i _ _ | FontControlMove i _ _ _
  | FontControlMatrix i _ _ | FontControlGCOL i _ _ _ _
  | FontControlRGB i _ _ _ _ | FontControlComment i _ _
  | FontControlUnderline i _ _ _ | FontControlFont i _ _
  | FontControlMoveCharacter i _ _ _ | FontControlMoveSpace i _ _ _ => i
  end.

Definition index_end (ctrl : FontControl) : Z :=
  match ctrl with
  | FontControlString _ i _ | FontControlMove _ i _ _
  | FontControlMatrix _ i _ | FontControlGCOL _ i _ _ _
  | FontControlRGB _ i _ _ _ | FontControlComment _ i _
  | FontControlUnderline _ i _ _ | FontControlFont _ i _
  | FontControlMoveCharacter _ i _ _ | FontControlMoveSpace _ i _ _ => i
  end.

(** The constructors, as [__init__] stores its arguments. Those of
    [FontControlGCOL] and [FontControlRGB] end in [self.offset = None]. *)
Definition FontControlGCOL_init (indexes : Z * Z) (fg_ bg_ offset : option Z)
  : FontControl :=
  FontControlGCOL (fst indexes) (snd indexes) fg_ bg_ None.

Definition FontControlRGB_init (indexes : Z * Z) (fg_ bg_ offset : option Z)
  : FontControl :=
  FontControlRGB (fst indexes) (snd indexes) fg_ bg_ None.

Definition FontControlMove_init (indexes : Z * Z) (dx dy : Z) : FontControl :=
  FontControlMove (fst indexes) (snd indexes) dx dy.

Definition isinstance_String (ctrl : FontControl) : bool :=
  match ctrl with
  | FontControlString _ _ _ => true
  | _ => false
  end.

(** [size]: (xleft, ybottom, xright, ytop, xoffset, yoffset). *)
Definition FontControl_size (ctrl : FontControl) (context : FontContext)
  : Z * Z * Z * Z * Z * Z :=
  match ctrl with
  | FontControlString _ _ s =>
      let '(xleft, ybottom, xright, ytop, xoffset, yoffset) :=
        font_bounds context (Some s) in
      if Matrix_bool (transform context) then
        let '(xleft, ybottom, xright, ytop) :=
          Matrix_bbox (transform context) xleft ybottom xright ytop in
        let '(xoffset, yoffset) :=
          Matrix_apply (transform context) xoffset yoffset in
        (xleft, ybottom, xright, ytop, xoffset, yoffset)
      else (xleft, ybottom, xright, ytop, xoffset, yoffset)
  | FontControlMove _ _ dx dy
  | FontControlMoveCharacter _ _ dx dy
  | FontControlMoveSpace _ _ dx dy => (0, 0, 0, 0, dx, dy)
  | _ => (0, 0, 0, 0, 0, 0)
  end.

(** [FontControlBase.apply]: union the sized box into the bounds and advance
    the cursor. The tuple it returns is not used by any caller and is left
    out. *)
Definition FontControlBase_apply (ctrl : FontControl) (context : FontContext)
  : FontContext :=
  let '(xleft, ybottom, xright, ytop, xoffset, yoffset) :=
    FontControl_size ctrl context in
  let context :=
    set_bounds context
      (Bounds_iadd (bounds context)
         (x context + xleft, y context + ybottom,
          x context + xright, y context + ytop)) in
  set_xy context (x context + xoffset) (y context + yoffset).

(** [apply], by class. *)
Definition FontControl_apply (ctrl : FontControl) (context : FontContext)
  : FontContext :=
  match ctrl with
  | FontControlMatrix _ _ m =>
      FontControlBase_apply ctrl (set_transform context m)
  | FontControlGCOL _ _ f b o =>
      FontControlBase_apply ctrl (select_colour context b f o None None)
  | FontControlRGB _ _ f b o =>
      FontControlBase_apply ctrl (select_colour context None None o b f)
  | FontControlUnderline _ _ pos thickness =>
      let '(_, _, _, y1, _, _) := font_bounds context None in
      let multiplier := (y1 # 256)%Q in
      FontControlBase_apply ctrl
        (set_underline context (inject_Z pos * multiplier)%Q
                               (inject_Z thickness * multiplier)%Q)
  | FontControlFont _ _ h =>
      FontControlBase_apply ctrl (select_font context h)
  | _ => FontControlBase_apply ctrl context
  end.

(** ** FontControlSequence: splitting and spacing *)

Fixpoint starts_with (sep s : bytes) : bool :=
  match sep, s with
  | [], _ => true
  | a :: sep', b :: s' => Byte.eqb a b && starts_with sep' s'
  | _ :: _, [] => false
  end.

(** [s.split(sep)] for a separator that is not empty (the code never passes
    an empty one): [skip] counts the bytes of a separator still to pass,
    [cur] is the part being collected. *)
Fixpoint split_from (sep s : bytes) (skip : nat) (cur : bytes) : list bytes :=
  match s with
  | [] => [cur]
  | b :: s' =>
      match skip with
      | S k => split_from sep s' k cur
      | O =>
          if starts_with sep s
          then cur :: split_from sep s' (length sep - 1) []
          else split_from sep s' 0 (cur ++ [b])
      end
  end.

Definition bytes_split (s sep : bytes) : list bytes := split_from sep s 0 [].

(** [[b for b in s]], each integer turned back into a one-byte string by
    [bytes(bytearray([s]))]. *)
Definition bytes_each (s : bytes) : list bytes := map (fun b => [b]) s.

Definition nonempty {A} (l : list A) : bool :=
  match l with [] => false | _ :: _ => true end.

(** The [split_char] argument: [None], [-1] or a bytes value. *)
Inductive SplitChar :=
| SplitEvery
| SplitOn (sep : bytes).

Definition split_char_bool (split_char : option SplitChar) : bool :=
  match split_char with
  | None => false
  | Some SplitEvery => true
  | Some (SplitOn sep) => nonempty sep
  end.

Definition is_minus_one (split_char : option SplitChar) : bool :=
  match split_char with
  | Some SplitEvery => true
  | _ => false
  end.

(** The inner loop of [_apply_splits] over [enumerate(parts)]. *)
Fixpoint split_pieces (start : Z) (split_char : SplitChar) (nparts : Z)
  (part : Z) (parts : list bytes) (offset : Z) : list FontControl :=
  match parts with
  | [] => []
  | s :: rest =>
      let last := part =? nparts - 1 in
      let size := len s in
      let indexes := (start + offset, start + offset + size) in
      let piece :=
        if nonempty s
        then [FontControlString (fst indexes) (snd indexes) s] else [] in
      let offset := offset + size in
      match split_char with
      | SplitOn sep =>
          if negb last then
            let indexes := (start + offset, start + offset + 1) in
            piece ++ FontControlString (fst indexes) (snd indexes) sep
                  :: split_pieces start split_char nparts (part + 1) rest
                       (offset + 1)
          else
            piece ++ split_pieces start split_char nparts (part + 1) rest
                       offset
      | SplitEvery =>
          piece ++ split_pieces start split_char nparts (part + 1) rest offset
      end
  end.

(** Split up the strings into sections when we encounter a given split
    character. *)
Fixpoint _apply_splits (sequence : list FontControl)
  (split_char : option SplitChar) : list FontControl :=
  match sequence with
  | [] => []
  | ctrl :: rest =>
      match ctrl, split_char with
      | FontControlString start _ s, Some sc =>
          if split_char_bool split_char then
            let parts :=
              match sc with
              | SplitEvery => bytes_each s
              | SplitOn sep => bytes_split s sep
              end in
            if len parts =? 1
            then ctrl :: _apply_splits rest split_char
            else split_pieces start sc (len parts) 0 parts 0
                   ++ _apply_splits rest split_char
          else ctrl :: _apply_splits rest split_char
      | _, _ => ctrl :: _apply_splits rest split_char
      end
  end.

(** The inner loop of [apply_spacing] over [enumerate(parts)]. *)
Fixpoint spaced_pieces (start : Z) (spacing : FontSpacing)
  (word_split : bool) (nparts : Z) (part : Z) (parts : list bytes)
  (offset : Z) : list FontControl :=
  match parts with
  | [] => []
  | s :: rest =>
      let last := part =? nparts - 1 in
      let s := if word_split && negb last then s ++ [x20] else s in
      if negb (nonempty s) then
        spaced_pieces start spacing word_split nparts (part + 1) rest offset
      else
        let size := len s in
        let indexes := (start + offset, start + offset + size) in
        let moves :=
          if negb word_split then
            FontControlMoveCharacter (snd indexes) (snd indexes)
              (char_xoffset spacing) (char_yoffset spacing)
            :: (if py_eq (PyBytes s) (PyBytes [x20]) &&
                   (truthy (word_xoffset spacing) ||
                    truthy (word_yoffset spacing))
                then [FontControlMoveSpace (snd indexes) (snd indexes)
                        (word_xoffset spacing) (word_yoffset spacing)]
                else [])
          else
            (* s[-1] is an integer, b' ' is a bytes value *)
            if py_eq (PyInt (byte_val (List.last s x00))) (PyBytes [x20])
            then [FontControlMoveSpace (snd indexes) (snd indexes)
                    (word_xoffset spacing) (word_yoffset spacing)]
            else [] in
        FontControlString (fst indexes) (snd indexes) s
          :: moves
          ++ spaced_pieces start spacing word_split nparts (part + 1) rest
               (offset + size)
  end.

Definition space_string (start : Z) (s : bytes) (spacing : FontSpacing)
  : list FontControl :=
  if truthy (char_xoffset spacing) || truthy (char_yoffset spacing) then
    let parts := bytes_each s in
    spaced_pieces start spacing false (len parts) 0 parts 0
  else
    let parts := bytes_split s [x20] in
    spaced_pieces start spacing true (len parts) 0 parts 0.

(** Create a new sequence of operations which introduces spacing. The
    generator reads nothing of the context, so the list it yields is
    computed at once. *)
Definition apply_spacing (sequence : list FontControl)
  (spacing : option FontSpacing) (split_char : option SplitChar)
  : list FontControl :=
  flat_map
    (fun ctrl =>
       match ctrl, spacing with
       | FontControlString start _ s, Some sp =>
           if FontSpacing_bool sp then space_string start s sp else [ctrl]
       | _, _ => [ctrl]
       end)
    (_apply_splits sequence split_char).

(** ** FontContext.size *)

(** The local function [beyond_limits] of [size]. [and] and [or] evaluate
    from the left and stop early, so [limity] is only compared when the two
    tests on [limitx] fail; comparing [None] with 0 raises [TypeError]. *)
Definition beyond_limits (context : FontContext) : result bool :=
  match limitx context with
  | None => Raise TypeError
  | Some lx =>
      if ((lx >=? 0) && (x context >? lx)) ||
         ((lx <? 0) && (x context >? lx))
      then Ok true
      else
        match limity context with
        | None => Raise TypeError
        | Some ly =>
            Ok (((ly >=? 0) && (y context >? ly)) ||
                ((ly <? 0) && (y context <? ly)))
        end
  end.

(** What a call of [size] leaves: the tuple it returns,
    (terminating index, count of splits seen), and [self] afterwards. *)
Definition size_result : Type := (Z * Z) * FontContext.

(** The [for] loop of [size]. [recurse] stands for the call
    [last_context.size(sequence, split_char=-1, continued=True)]; [None]
    means that the nesting allowed for that call ran out. *)
Fixpoint size_walk
  (recurse : FontContext -> list FontControl -> option (result size_result))
  (split_char : option SplitChar) (ctrls : list FontControl)
  (self last_context last_split_point : FontContext)
  (last_split_index last_index last_splits_seen : Z)
  : option (result size_result) :=
  match ctrls with
  | [] => Some (Ok ((last_index, last_splits_seen), self))
  | ctrl :: rest =>
      let last_context := copy self in
      let self := FontControl_apply ctrl self in
      let splits_seen := 0 in
      let string_ : bytes := [] in
      let '(string_, splits_seen) :=
        match ctrl with
        | FontControlString _ _ s =>
            (s,
             match split_char with
             | None => splits_seen + len s
             | Some sc =>
                 if match sc with
                    | SplitOn sep => py_eq (PyBytes s) (PyBytes sep)
                    | SplitEvery => false
                    end || is_minus_one split_char
                 then 1 else splits_seen
             end)
        | _ => (string_, splits_seen)
        end in
      match beyond_limits self with
      | Raise e => Some (Raise e)
      | Ok true =>
          (* This sequence did not fit *)
          if split_char_bool split_char && negb (is_minus_one split_char)
          then
            Some (Ok ((last_split_index, last_splits_seen),
                      copy last_split_point))
          else if len string_ >? 1 then
            match recurse last_context [ctrl] with
            | None => None
            | Some (Raise e) => Some (Raise e)
            | Some (Ok ((last_index, splits_seen), last_context)) =>
                Some (Ok ((last_index, last_splits_seen + splits_seen),
                          copy last_context))
            end
          else
            Some (Ok ((last_index, last_splits_seen), copy last_context))
      | Ok false =>
          let '(last_split_point, last_split_index) :=
            if truthy splits_seen && split_char_bool split_char
            then (copy self, index_end ctrl)
            else (last_split_point, last_split_index) in
          size_walk recurse split_char rest self last_context
            last_split_point last_split_index (index_end ctrl)
            (last_splits_seen + splits_seen)
      end
  end.

(** The start of [size] when [continued] is false: sizing bases at 0, 0
    with a clear bounding box and no underline, and takes its limits from
    the [limits] argument. *)
Definition size_reset (self : FontContext) (limits : option (Z * Z))
  : FontContext :=
  let self := set_xy self 0 0 in
  let self := clear_bounds self in
  let self := clear_underline self in
  set_limits self
    (Some (match limits with
           | None => 0x7FFFFFFF
           | Some (lx, _) => lx
           end))
    (Some (match limits with
           | None => 0x7FFFFFFF
           | Some (_, ly) => ly
           end)).

(** Find the extent of the sequence. [depth] bounds how deep [size] may call
    itself; the result is [None] when that is not enough. *)
Fixpoint size_depth (depth : nat) (self : FontContext)
  (sequence : list FontControl) (spacing : option FontSpacing)
  (limits : option (Z * Z)) (split_char : option SplitChar)
  (continued : bool) : option (result size_result) :=
  match depth with
  | O => None
  | S depth' =>
      let self := if negb continued then size_reset self limits else self in
      let last_context := copy self in
      let last_split_point := copy self in
      size_walk
        (fun ctx seq =>
           size_depth depth' ctx seq None None (Some SplitEvery) true)
        split_char (apply_spacing sequence spacing split_char)
        self last_context last_split_point 0 0 0
  end.

(** The nested call splits its one string into single bytes, so it never
    nests again: two levels are all [size] uses ([size_depth_enough]). *)
Definition size (self : FontContext) (sequence : list FontControl)
  (spacing : option FontSpacing) (limits : option (Z * Z))
  (split_char : option SplitChar) (continued : bool)
  : option (result size_result) :=
  size_depth 2 self sequence spacing limits split_char continued.

(** ** FontControlParser *)

Record FontControlParser := {
  sequence : list FontControl;
  string : bytes;
  index : Z;
  max_length : Z
}.

Definition FontControlParser_init : FontControlParser :=
  {| sequence := []; string := []; index := 0; max_length := 0 |}.

Definition set_index (p : FontControlParser) (i : Z) : FontControlParser :=
  {| sequence := sequence p; string := string p; index := i;
     max_length := max_length p |}.

Definition set_sequence (p : FontControlParser) (l : list FontControl)
  : FontControlParser :=
  {| sequence := l; string := string p; index := index p;
     max_length := max_length p |}.

Definition append (p : FontControlParser) (fc : FontControl)
  : FontControlParser :=
  set_sequence p (sequence p ++ [fc]).

(** Clear all state (sequence and parser). *)
Definition clear (p : FontControlParser) : FontControlParser :=
  FontControlParser_init.

(** Reset the parser, but keep the current sequence. *)
Definition reset (p : FontControlParser) : FontControlParser :=
  {| sequence := sequence p; string := []; index := 0; max_length := 0 |}.

(** Move back byte. *)
Definition step_back (p : FontControlParser) : FontControlParser :=
  if truthy (index p) then set_index p (index p - 1) else p.

(** [s[i]] for an index inside the string. *)
Definition byte_at (s : bytes) (i : Z) : byte := nth (Z.to_nat i) s x00.

(** Read a single byte from our input string; at the end of the string the
    terminator 0 is returned and the index still moves on. *)
Definition read_byte (p : FontControlParser) : byte * FontControlParser :=
  if (index p >=? len (string p)) || (index p >=? max_length p)
  then (x00, set_index p (index p + 1))
  else (byte_at (string p) (index p), set_index p (index p + 1)).

(** [struct.unpack('<l', data)] and [struct.unpack('<L', data)]: [data] has
    to be 4 bytes long. *)
Definition unpack_word (signed : bool) (data : bytes) : result Z :=
  match data with
  | [b0; b1; b2; b3] =>
      let u := byte_val b0 + 256 * byte_val b1 + 65536 * byte_val b2
               + 16777216 * byte_val b3 in
      Ok (if signed && (u >=? 2 ^ 31) then u - 2 ^ 32 else u)
  | _ => Raise StructError
  end.

(** [string[i:j]] for indexes that are not negative. *)
Definition slice (s : bytes) (i j : Z) : bytes :=
  firstn (Z.to_nat (j - i)) (skipn (Z.to_nat i) s).

(** Read an unsigned/signed word (4 bytes, little endian); the value is
    [None] if invalid. *)
Definition read_word (p : FontControlParser) (signed : bool)
  : result (option Z * FontControlParser) :=
  if (index p + 3 >? len (string p)) || (index p + 3 >? max_length p)
  then Ok (None, p)
  else
    let data := slice (string p) (index p) (index p + 4) in
    value <- unpack_word signed data ;;
    Ok (Some value, set_index p (index p + 4)).

Definition read_signedword (p : FontControlParser)
  : result (option Z * FontControlParser) :=
  read_word p true.

(** Read a matrix of 4 or 6 words. Dividing [None] by 65536.0 raises
    [TypeError]; the divisions come after all the reads. *)
Definition read_matrix (p : FontControlParser) (with_translation : bool)
  : result (Matrix * FontControlParser) :=
  '(a, p) <- read_signedword p ;;
  '(b, p) <- read_signedword p ;;
  '(c, p) <- read_signedword p ;;
  '(d, p) <- read_signedword p ;;
  '(e, f, p) <-
    (if with_translation then
       '(e, p) <- read_signedword p ;;
       '(f, p) <- read_signedword p ;;
       Ok (e, f, p)
     else Ok (Some 0, Some 0, p)) ;;
  match a, b, c, d with
  | Some a, Some b, Some c, Some d =>
      Ok (Matrix_array {| ma_a := a; ma_b := b; ma_c := c; ma_d := d;
                          ma_e := e; ma_f := f |}, p)
  | _, _, _, _ => Raise TypeError
  end.

(** Align to a word boundary. *)
Definition align (p : FontControlParser) : FontControlParser :=
  set_index p (Z.land (index p + 3) (Z.lnot 3)).

(** The [while] loop that collects a comment; [fuel] bounds its turns. *)
Fixpoint read_comment (fuel : nat) (p : FontControlParser) (comment : bytes)
  : option (FontControlParser * bytes) :=
  match fuel with
  | O => None
  | S fuel' =>
      let '(b, p) := read_byte p in
      if byte_val b <? 32 then Some (p, comment)
      else read_comment fuel' p (comment ++ [b])
  end.

(** One turn of the [while True] loop of [parse]. *)
Inductive turn :=
| Continue (p : FontControlParser)
| Break (p : FontControlParser)
| Raised (e : PyExn)
| Unfinished.

(** The last branch of the loop: another character for the font string. *)
Definition accumulate (p : FontControlParser) (start_index : Z) (b : byte)
  : FontControlParser :=
  match rev (sequence p) with
  | FontControlString s0 _ s :: before =>
      (* sequence[-1] is a string: append to it and update the end index *)
      set_sequence p
        (rev before ++ [FontControlString s0 (index p) (s ++ [b])])
  | _ =>
      (* We need to create a new string object *)
      append p (FontControlString start_index (index p) [b])
  end.

Definition parse_turn (p : FontControlParser) : turn :=
  let start_index := index p in
  let '(b, p) := read_byte p in
  let v := byte_val b in
  if (v =? 0) || (v =? 10) || (v =? 13) then
    (* Terminator: move back so that we point to the terminator *)
    Break (step_back p)
  else if (v =? 9) || (v =? 11) then
    (* Move position (x, y) *)
    let '(b0, p) := read_byte p in
    let '(b1, p) := read_byte p in
    let '(b2, p) := read_byte p in
    let pos := Z.lor (Z.lor (byte_val b0) (Z.shiftl (byte_val b1) 8))
                     (Z.shiftl (byte_val b2) 16) in
    let fc :=
      if v =? 9
      then FontControlMove_init (start_index, index p) pos 0
      else FontControlMove_init (start_index, index p) 0 pos in
    Continue (append p fc)
  else if v =? 17 then
    (* Change FG colour to GCOL colour *)
    let '(g, p) := read_byte p in
    let gcol := byte_val g in
    let is_bg := Z.land gcol 0x80 in
    let gcol := Z.land gcol 0x7f in
    let fc :=
      if truthy is_bg
      then FontControlGCOL_init (start_index, index p) None (Some gcol) None
      else FontControlGCOL_init (start_index, index p) (Some gcol) None None
    in
    Continue (append p fc)
  else if v =? 18 then
    (* Change BG+FG colour to GCOL colour (bg, fg, offset) *)
    let '(b_bg, p) := read_byte p in
    let '(b_fg, p) := read_byte p in
    let '(b_offset, p) := read_byte p in
    let fc :=
      FontControlGCOL_init (start_index, index p)
        (Some (byte_val b_fg)) (Some (byte_val b_bg))
        (Some (byte_val b_offset)) in
    Continue (append p fc)
  else if v =? 19 then
    (* Change BG+FG colour to RGB (r,g,b,R,G,B,offset) *)
    let '(r0, p) := read_byte p in
    let '(g0, p) := read_byte p in
    let '(b0, p) := read_byte p in
    let bg_ := Z.lor (Z.lor (Z.lor (Z.shiftl (byte_val r0) 8)
                                   (Z.shiftl (byte_val g0) 16))
                            (Z.shiftl (byte_val b0) 24)) 0x10 in
    let '(r1, p) := read_byte p in
    let '(g1, p) := read_byte p in
    let '(b1, p) := read_byte p in
    let fg_ := Z.lor (Z.lor (Z.lor (Z.shiftl (byte_val r1) 8)
                                   (Z.shiftl (byte_val g1) 16))
                            (Z.shiftl (byte_val b1) 24)) 0x10 in
    let '(b_offset, p) := read_byte p in
    let fc :=
      FontControlRGB_init (start_index, index p)
        (Some fg_) (Some bg_) (Some (byte_val b_offset)) in
    Continue (append p fc)
  else if v =? 21 then
    (* Hidden comment string *)
    match read_comment (S (length (string p))) p [] with
    | None => Unfinished
    | Some (p, comment) =>
        Continue (append p (FontControlComment start_index (index p) comment))
    end
  else if v =? 25 then
    (* Underline position and thickness *)
    let '(b_pos, p) := read_byte p in
    let '(b_thickness, p) := read_byte p in
    let pos := byte_val b_pos in
    let pos := if pos >? 127 then pos - 256 else pos in
    Continue (append p (FontControlUnderline start_index (index p) pos
                          (byte_val b_thickness)))
  else if v =? 26 then
    (* Font handle *)
    let '(h, p) := read_byte p in
    Continue (append p (FontControlFont start_index (index p) (byte_val h)))
  else if (v =? 27) || (v =? 28) then
    (* Change transform *)
    let p := align p in
    match read_matrix p (negb (v =? 27)) with
    | Raise e => Raised e
    | Ok (matrix, p) =>
        Continue (append p (FontControlMatrix start_index (index p) matrix))
    end
  else if v <? 32 then
    (* Some other control character *)
    Break p
  else
    Continue (accumulate p start_index b).

Fixpoint parse_loop (fuel : nat) (p : FontControlParser)
  : option (result FontControlParser) :=
  match fuel with
  | O => None
  | S fuel' =>
      match parse_turn p with
      | Continue p' => parse_loop fuel' p'
      | Break p' => Some (Ok p')
      | Raised e => Some (Raise e)
      | Unfinished => None
      end
  end.

(** The [max_length] that [parse] enforces. *)
Definition parse_max_length (max_length_ : option Z) : Z :=
  match max_length_ with
  | None => Z.shiftl 1 20
  | Some m => if (m >=? Z.shiftl 1 20) || (m <? 0) then Z.shiftl 1 20 else m
  end.

(** Parse the string to give us a sequence of FontControl* objects. Every
    turn that does not end the loop has read a byte of the string, so one
    turn more than the string is long is enough ([parse_total]). *)
Definition parse (p : FontControlParser) (string_ : bytes)
  (max_length_ : option Z) : option (result FontControlParser) :=
  parse_loop (S (length string_))
    {| sequence := sequence p; string := string_; index := 0;
       max_length := parse_max_length max_length_ |}.

End Context_state.

(** ** The base classes as they stand *)

(** A [FontContext] of the base class, with its stub conversions, over the
    Matrix and Bounds modelled from the spec; and a new parser. *)
Definition base_context : @FontContext spec_structs := FontContext_init.

#[export] Instance base_hooks : @Hooks spec_structs := stub_hooks.

Definition new_parser : @FontControlParser spec_structs :=
  FontControlParser_init.

(** ** Predicates used in the statements *)

Section Predicates.

Context {structs : Structs} {hooks : Hooks}.

(** A String record spans as many bytes as it holds. *)
Definition string_span_ok (ctrl : FontControl) : Prop :=
  match ctrl with
  | FontControlString i j s => j - i = len s
  | _ => True
  end.

(** The record the parser would append the next character to. *)
Definition open_string (l : list FontControl) : option (Z * Z * bytes) :=
  match rev l with
  | FontControlString i j s :: _ => Some (i, j, s)
  | _ => None
  end.

(** What holds of the sequence between two turns of [parse]: the spans of
    its strings are right, and a string at its end stops at the index. *)
Definition spans_in_step (p : FontControlParser) : Prop :=
  Forall string_span_ok (sequence p) /\
  match open_string (sequence p) with
  | Some (_, j, _) => j = index p
  | None => True
  end.

(** What stays as it is while the parser reads: the sequence, the string
    and [max_length]. *)
Definition same_input (p p' : FontControlParser) : Prop :=
  sequence p' = sequence p /\ string p' = string p /\
  max_length p' = max_length p.

Definition is_MoveSpace (ctrl : FontControl) : bool :=
  match ctrl with
  | FontControlMoveSpace _ _ _ _ => true
  | _ => false
  end.

(** The records whose [apply] leaves the transform, the font and the
    colours of the context as they are. *)
Definition keeps_style (ctrl : FontControl) : bool :=
  match ctrl with
  | FontControlMatrix _ _ _ | FontControlGCOL _ _ _ _ _
  | FontControlRGB _ _ _ _ _ | FontControlFont _ _ _ => false
  | _ => true
  end.

(** Two contexts that agree on everything [size] does not reset. *)
Definition same_style (c c' : FontContext) : Prop :=
  maxcol c' = maxcol c /\ bg c' = bg c /\ fgbase c' = fgbase c /\
  fgoffset c' = fgoffset c /\ fg c' = fg c /\ fgpal c' = fgpal c /\
  bgpal c' = bgpal c /\ font_handle c' = font_handle c /\
  font c' = font c /\ transform c' = transform c.

(** Both limits of the context are numbers. *)
Definition limits_set (c : FontContext) : Prop :=
  is_some (limitx c) = true /\ is_some (limity c) = true.

(** A record that is not a string of two bytes or more. *)
Definition short_string (ctrl : FontControl) : Prop :=
  match ctrl with
  | FontControlString _ _ s => len s <= 1
  | _ => True
  end.

(** A property of records that holds of every record [_apply_splits] and
    [apply_spacing] make: strings and the two spacing moves. *)
Definition holds_of_pieces (Q : FontControl -> Prop) : Prop :=
  (forall i j s, Q (FontControlString i j s)) /\
  (forall i j dx dy, Q (FontControlMoveCharacter i j dx dy)) /\
  (forall i j dx dy, Q (FontControlMoveSpace i j dx dy)).

End Predicates.

(** ** Inputs of the examples *)

(** [b'a'], then control code 28 with a matrix that is the identity moved
    by (2^30, 0), then [b'b']: the words start at index 4. *)
Definition moved_bytes : bytes :=
  [x61; x1c; x00; x00;
   x00; x00; x01; x00;  x00; x00; x00; x00;
   x00; x00; x00; x00;  x00; x00; x01; x00;
   x00; x00; x00; x40;  x00; x00; x00; x00;
   x62].

Definition moved_matrix : MatrixArray :=
  {| ma_a := 65536; ma_b := 0; ma_c := 0; ma_d := 65536;
     ma_e := Some 1073741824; ma_f := Some 0 |}.

Definition moved_sequence : list (@FontControl spec_structs) :=
  [FontControlString 0 1 [x61];
   FontControlMatrix 1 28 moved_matrix;
   FontControlString 28 29 [x62]].

(** ** The string content of a parse *)

Section String_content.

Context {structs : Structs}.

Definition simple_string_of (l : list FontControl) : bytes :=
  flat_map
    (fun fc =>
       match fc with
       | FontControlString _ _ s => s
       | _ => []
       end) l.

(** Return just the string content of this font control sequence. *)
Definition simple_string (p : FontControlParser) : bytes :=
  simple_string_of (sequence p).

(** How many bytes were skipped out of this sequence. *)
Definition nskipped_controls (p : FontControlParser) : Z :=
  index p - len (simple_string p).

(** The records of [l] follow one another from index [from] up to index
    [upto], each one starting where the one before ends and none empty. *)
Fixpoint tiles (from : Z) (l : list FontControl) (upto : Z) : Prop :=
  match l with
  | [] => from = upto
  | fc :: l' =>
      index_start fc = from /\ from < index_end fc /\
      tiles (index_end fc) l' upto
  end.

(** A String record holds the bytes of [buffer] that it spans, and they are
    all printable. *)
Definition string_from (buffer : bytes) (ctrl : FontControl) : Prop :=
  match ctrl with
  | FontControlString i j s =>
      s = slice buffer i j /\ Forall (fun b => 32 <= byte_val b) s
  | _ => True
  end.

(** The bytes that end [parse] and leave the index on them. *)
Definition is_terminator (b : byte) : Prop :=
  byte_val b = 0 \/ byte_val b = 10 \/ byte_val b = 13.

(** What holds of the parser between two turns of a parse that started
    with an empty sequence. *)
Definition tiled_so_far (p : FontControlParser) : Prop :=
  0 <= index p /\
  tiles 0 (sequence p) (index p) /\
  Forall (string_from (string p)) (sequence p).

(** [sep.join(parts)]. *)
Fixpoint bytes_join (sep : bytes) (parts : list bytes) : bytes :=
  match parts with
  | [] => []
  | [a] => a
  | a :: rest => a ++ sep ++ bytes_join sep rest
  end.

(** A [split_char] that is [None], [-1], or at most one byte long. *)
Definition one_byte_split (split_char : option SplitChar) : Prop :=
  match split_char with
  | Some (SplitOn sep) => len sep <= 1
  | _ => True
  end.

(** The control codes below 32 that [parse] knows, terminators included. *)
Definition known_control (v : Z) : bool :=
  (v =? 0) || (v =? 10) || (v =? 13) || (v =? 9) || (v =? 11) ||
  (v =? 17) || (v =? 18) || (v =? 19) || (v =? 21) || (v =? 25) ||
  (v =? 26) || (v =? 27) || (v =? 28).

End String_content.

(** ** Applying a whole sequence *)

Section Apply_all.

Context {structs : Structs} {hooks : Hooks}.






End Apply_all.

(** * Properties *)

(** ** The colour state *)

Section Colour_properties.

Context {structs : Structs} {hooks : Hooks}.

Lemma saturate_range (v hi : Z) :
  0 <= hi -> 0 <= saturate v 0 hi <= hi.
Proof. unfold saturate; lia. Qed.

Lemma saturate_id (v hi : Z) :
  0 <= v <= hi -> saturate v 0 hi = v.
Proof. unfold saturate; lia. Qed.

(** [_gcol_updated] establishes the palette invariant whatever the GCOL
    values were, as long as the maximum colour is not negative. *)
Lemma _gcol_updated_invariant (self : FontContext) :
  0 <= maxcol self -> palette_invariant (_gcol_updated self).
Proof.
  intros Hmax. unfold palette_invariant, _gcol_updated; cbn.
  unfold saturate. lia.
Qed.

Lemma _gcol_updated_maxcol (self : FontContext) :
  maxcol (_gcol_updated self) = maxcol self.
Proof. reflexivity. Qed.

Lemma _rgb_updated_invariant (self : FontContext) :
  0 <= maxcol self -> palette_invariant (_rgb_updated self).
Proof.
  intros Hmax. unfold _rgb_updated. apply _gcol_updated_invariant. exact Hmax.
Qed.

Lemma select_colour_maxcol (self : FontContext)
  (bg_ fg_ fgoffset_ bgpal_ fgpal_ : option Z) :
  maxcol (select_colour self bg_ fg_ fgoffset_ bgpal_ fgpal_) = maxcol self.
Proof.
  unfold select_colour.
  destruct fg_, bg_, fgoffset_, fgpal_, bgpal_; reflexivity.
Qed.

(** C1 (as amended). From a state that satisfies the palette invariant, a
    [select_colour] call that supplies at least one of bg, fg, bgpal, fgpal,
    or that supplies nothing, ends in a state that satisfies it again. A
    call that supplies only fgoffset stores [fg = fgbase + fgoffset] without
    saturating it and leaves the rest of the palette alone, so the invariant
    holds afterwards exactly when that sum lies in [0, maxcol]. *)
Theorem select_colour_palette_invariant (self : FontContext)
  (bg_ fg_ fgoffset_ bgpal_ fgpal_ : option Z) :
  palette_invariant self ->
  let self' := select_colour self bg_ fg_ fgoffset_ bgpal_ fgpal_ in
  if is_some bg_ || is_some fg_ || is_some bgpal_ || is_some fgpal_
     || negb (is_some fgoffset_)
  then palette_invariant self'
  else
    fg self' = fgbase self + fgoffset self' /\
    fgbase self' = fgbase self /\ bg self' = bg self /\
    (palette_invariant self' <-> 0 <= fgbase self + fgoffset self' <= maxcol self).
Proof.
  intros Hinv self'.
  assert (Hmax : 0 <= maxcol self) by (destruct Hinv as (_ & _ & ?); lia).
  destruct bgpal_ as [bp|], fgpal_ as [fp|].
  1-3: replace (_ || _ || _ || _ || _) with true
         by (destruct bg_, fg_, fgoffset_; reflexivity);
       subst self'; unfold select_colour;
       destruct fg_, bg_, fgoffset_; cbn -[_rgb_updated _gcol_updated];
       apply _rgb_updated_invariant; cbn; exact Hmax.
  destruct fg_ as [f|], bg_ as [b|].
  1-3: replace (_ || _ || _ || _ || _) with true
         by (destruct fgoffset_; reflexivity);
       subst self'; unfold select_colour;
       destruct fgoffset_; cbn -[_gcol_updated];
       apply _gcol_updated_invariant; cbn; exact Hmax.
  destruct fgoffset_ as [o|]; subst self'; cbn.
  - unfold palette_invariant in *; cbn. unfold saturate in *.
    repeat split; try tauto; lia.
  - exact Hinv.
Qed.

(** C3 (as amended). Whatever else a [select_colour] call supplies, an RGB
    value [v] it supplies is converted to a palette entry, saturated, and the
    stored RGB value is recomputed from that entry: the call ends with
    [gcol_to_rgb (saturate (rgb_to_gcol v) 0 maxcol)], which is [v] only
    when the hooks map [v] back to itself. *)
Theorem select_colour_rgb_rederived (self : FontContext)
  (bg_ fg_ fgoffset_ bgpal_ fgpal_ : option Z) :
  let self' := select_colour self bg_ fg_ fgoffset_ bgpal_ fgpal_ in
  (forall v, fgpal_ = Some v ->
     fgpal self' = gcol_to_rgb (saturate (rgb_to_gcol v) 0 (maxcol self))) /\
  (forall v, bgpal_ = Some v ->
     bgpal self' = gcol_to_rgb (saturate (rgb_to_gcol v) 0 (maxcol self))).
Proof.
  split; intros v ->; unfold select_colour;
    destruct fg_, bg_, fgoffset_; try destruct bgpal_; try destruct fgpal_;
    reflexivity.
Qed.

(** C2 (as amended). With both limits set, [beyond_limits] answers, and it
    says yes exactly when [x > limitx], or [limity >= 0] and [y > limity], or
    [limity < 0] and [y < limity]: a negative [limity] is a lower limit. *)
Theorem beyond_limits_iff (context : FontContext) (lx ly : Z) :
  limitx context = Some lx ->
  limity context = Some ly ->
  exists b, beyond_limits context = Ok b /\
    (b = true <->
     x context > lx \/
     (0 <= ly /\ y context > ly) \/
     (ly < 0 /\ y context < ly)).
Proof.
  intros Hx Hy. unfold beyond_limits. rewrite Hx, Hy.
  destruct (((lx >=? 0) && (x context >? lx)) ||
            ((lx <? 0) && (x context >? lx))) eqn:E.
  - exists true. split; [reflexivity|]. split; [intros _|reflexivity].
    left. lia.
  - eexists. split; [reflexivity|].
    rewrite orb_true_iff, !andb_true_iff. lia.
Qed.

End Colour_properties.

(** The new context satisfies the palette invariant. *)
Lemma base_context_invariant : palette_invariant base_context.
Proof. unfold palette_invariant, saturate; cbn; lia. Qed.

(** [select_colour(bg=9, fg=3, fgoffset=2)] on the new context. *)
Lemma select_colour_palette_invariant_witness :
  palette_invariant
    (select_colour base_context (Some 9) (Some 3) (Some 2) None None).
Proof.
  exact (select_colour_palette_invariant base_context
           (Some 9) (Some 3) (Some 2) None None base_context_invariant).
Defined.

(** C1, counterexample. [select_colour(fgoffset=9)] on the new context
    (maxcol 7, every colour 0) leaves [fg = 9]: [_gcol_updated] is not run
    when only fgoffset is given, so [fg] is above maxcol. *)
Lemma select_colour_fgoffset_only_unsaturated :
  palette_invariant base_context /\
  fg (select_colour base_context None None (Some 9) None None) = 9 /\
  ~ palette_invariant
      (select_colour base_context None None (Some 9) None None).
Proof.
  split; [exact base_context_invariant|]. split; [reflexivity|].
  unfold palette_invariant, saturate; cbn. lia.
Qed.

(** [select_colour(fg=1, bgpal=0xff10, fgpal=0xff10)] with the stub
    conversions. *)
Lemma select_colour_rgb_rederived_witness :
  fgpal (select_colour base_context None (Some 1) None
           (Some 0xff10) (Some 0xff10)) = 0xff10.
Proof.
  exact (proj1 (select_colour_rgb_rederived base_context None (Some 1)
                  None (Some 0xff10) (Some 0xff10)) 0xff10 eq_refl).
Defined.

(** C3, counterexample. [select_colour(fg=1, bgpal=0x8010, fgpal=0x8010)]
    with the stub conversions stores 0xff10 twice, not the 0x8010 supplied:
    the RGB side is recomputed from the palette entry 1. *)
Lemma select_colour_rgb_not_kept :
  let self' := select_colour base_context None (Some 1) None
                 (Some 0x8010) (Some 0x8010) in
  fgpal self' = 0xff10 /\ bgpal self' = 0xff10 /\
  fgpal self' <> 0x8010 /\ bgpal self' <> 0x8010.
Proof. cbn. repeat split; discriminate. Qed.

(** Limits (0, 5), cursor at (0, 0). *)
Lemma beyond_limits_iff_witness :
  exists b, beyond_limits (set_limits base_context (Some 0) (Some 5)) = Ok b /\
    (b = true <-> 0 > 0 \/ (0 <= 5 /\ 0 > 5) \/ (5 < 0 /\ 0 < 5)).
Proof.
  exact (beyond_limits_iff (set_limits base_context (Some 0) (Some 5))
           0 5 eq_refl eq_refl).
Defined.

(** C2, counterexample. With limits (0, -1) and the cursor at (0, 0),
    [y > limity] holds but the context is not judged beyond limits: for a
    negative [limity] the code tests [y < limity]. *)
Lemma beyond_limits_negative_limity :
  let context := set_limits base_context (Some 0) (Some (-1)) in
  beyond_limits context = Ok false /\
  (x context > 0 \/ y context > -1).
Proof. cbn. split; [reflexivity|]. right. lia. Qed.

(** ** The parser *)

Section Parser_properties.

Context {structs : Structs}.

Implicit Types p : FontControlParser.

Lemma byte_val_range (b : byte) : 0 <= byte_val b < 256.
Proof. unfold byte_val. pose proof (Byte.to_N_bounded b). lia. Qed.

(** [a | (b << n)] adds up when [a] fits in [n] bits. *)
Lemma lor_shiftl_add (a b n : Z) :
  0 <= n -> 0 <= a < 2 ^ n -> Z.lor a (Z.shiftl b n) = a + b * 2 ^ n.
Proof.
  intros Hn Ha.
  assert (Hland : Z.land a (Z.shiftl b n) = 0).
  { apply Z.bits_inj'. intros i Hi.
    rewrite Z.land_spec, Z.bits_0.
    destruct (Z.lt_ge_cases i n) as [Hlt|Hge].
    - rewrite Z.shiftl_spec_low by exact Hlt. apply andb_false_r.
    - rewrite <- (Z.mod_small a (2 ^ n)) by exact Ha.
      rewrite Z.mod_pow2_bits_high by lia. reflexivity. }
  pose proof (Z.add_lor_land a (Z.shiftl b n)) as Hadd.
  rewrite Hland, Z.shiftl_mul_pow2 in Hadd by exact Hn.
  rewrite Z.shiftl_mul_pow2 by exact Hn. lia.
Qed.

(** The three payload bytes of a move, low byte first, as one number. *)
Lemma move_payload_value (b0 b1 b2 : byte) :
  Z.lor (Z.lor (byte_val b0) (Z.shiftl (byte_val b1) 8))
        (Z.shiftl (byte_val b2) 16)
  = byte_val b0 + 256 * byte_val b1 + 65536 * byte_val b2.
Proof.
  pose proof (byte_val_range b0). pose proof (byte_val_range b1).
  pose proof (byte_val_range b2).
  rewrite (lor_shiftl_add (byte_val b0) (byte_val b1) 8) by lia.
  rewrite lor_shiftl_add by lia. lia.
Qed.

Lemma read_byte_snd p : snd (read_byte p) = set_index p (index p + 1).
Proof. unfold read_byte. destruct (_ || _); reflexivity. Qed.

Lemma read_byte_in p :
  0 <= index p -> index p < len (string p) -> index p < max_length p ->
  read_byte p = (byte_at (string p) (index p), set_index p (index p + 1)).
Proof.
  intros H0 H1 H2. unfold read_byte.
  replace (index p >=? len (string p)) with false by lia.
  replace (index p >=? max_length p) with false by lia.
  reflexivity.
Qed.

Lemma read_byte_end p :
  len (string p) <= index p \/ max_length p <= index p ->
  read_byte p = (x00, set_index p (index p + 1)).
Proof.
  intros H. unfold read_byte.
  destruct (index p >=? len (string p)) eqn:E1; [reflexivity|].
  destruct (index p >=? max_length p) eqn:E2; [reflexivity|]. lia.
Qed.

(** A byte that is not the terminator 0 was read from the string. *)
Lemma read_byte_nonzero p :
  byte_val (fst (read_byte p)) <> 0 ->
  index p < len (string p) /\ index p < max_length p /\
  fst (read_byte p) = byte_at (string p) (index p).
Proof.
  unfold read_byte.
  destruct (index p >=? len (string p)) eqn:E1; cbn; [intros H; elim H; reflexivity|].
  destruct (index p >=? max_length p) eqn:E2; cbn; [intros H; elim H; reflexivity|].
  intros _. repeat split; lia.
Qed.

(** *** read_word *)

(** With at most two bytes left before the end of the string or before
    [max_length], [read_word] returns [None] and does not move. *)
Lemma read_word_invalid p (signed : bool) :
  len (string p) < index p + 3 \/ max_length p < index p + 3 ->
  read_word p signed = Ok (None, p).
Proof.
  intros H. unfold read_word.
  destruct (index p + 3 >? len (string p)) eqn:E1; [reflexivity|].
  destruct (index p + 3 >? max_length p) eqn:E2; [reflexivity|]. lia.
Qed.

Lemma slice_length (s : bytes) (i j : Z) :
  0 <= i <= j ->
  len (slice s i j) = Z.min (j - i) (Z.max 0 (len s - i)).
Proof.
  intros H. unfold slice, len.
  rewrite length_firstn, length_skipn. lia.
Qed.

Lemma unpack_word_short (signed : bool) (data : bytes) :
  len data <> 4 -> unpack_word signed data = Raise StructError.
Proof.
  unfold len.
  destruct data as [|b0 [|b1 [|b2 [|b3 [|b4 data]]]]]; cbn [length];
    intros H; try reflexivity; lia.
Qed.

(** With exactly three bytes left before the end of the string (and
    [max_length] no nearer), the test of [read_word] lets the read through
    and [struct.unpack] gets three bytes: [struct.error], not [None]. *)
Lemma read_word_three_left p (signed : bool) :
  0 <= index p ->
  len (string p) = index p + 3 -> index p + 3 <= max_length p ->
  read_word p signed = Raise StructError.
Proof.
  intros H0 H1 H2. unfold read_word.
  replace (index p + 3 >? len (string p)) with false by lia.
  replace (index p + 3 >? max_length p) with false by lia.
  cbn [orb]. rewrite unpack_word_short; [reflexivity|].
  rewrite slice_length by lia. lia.
Qed.

(** With exactly three bytes left before [max_length] and a fourth byte in
    the string behind it, [read_word] reads the four and moves on. *)
Lemma read_word_three_before_max p (signed : bool) :
  0 <= index p ->
  max_length p = index p + 3 -> index p + 4 <= len (string p) ->
  exists value,
    read_word p signed = Ok (Some value, set_index p (index p + 4)).
Proof.
  intros H0 H1 H2. unfold read_word.
  replace (index p + 3 >? len (string p)) with false by lia.
  replace (index p + 3 >? max_length p) with false by lia.
  cbn [orb].
  assert (Hlen : len (slice (string p) (index p) (index p + 4)) = 4)
    by (rewrite slice_length by lia; lia).
  unfold len in Hlen.
  destruct (slice (string p) (index p) (index p + 4))
    as [|b0 [|b1 [|b2 [|b3 [|b4 data]]]]]; cbn [length] in Hlen; try lia.
  eexists. cbn [unpack_word bind]. reflexivity.
Qed.

Ltac read_next :=
  rewrite read_byte_in by (cbn [index string max_length set_index]; lia);
  cbn [index string max_length set_index sequence].

Ltac norm_index :=
  repeat match goal with
  | |- context [?i + 1 + 1 + 1 + 1] =>
      replace (i + 1 + 1 + 1 + 1) with (i + 4) by lia
  | |- context [?i + 1 + 1 + 1] => replace (i + 1 + 1 + 1) with (i + 3) by lia
  | |- context [?i + 1 + 1] => replace (i + 1 + 1) with (i + 2) by lia
  end.

(** C9 (as amended). A move (control code 9 or 11) read from the string
    stores its three payload bytes, low byte first, as the unsigned number
    [v = b0 + 256*b1 + 65536*b2]: code 9 gives [dx = v], code 11 gives
    [dy = v], and [0 <= v < 2^24], so the delta is never negative. *)
Theorem parse_turn_move_unsigned p (op : byte) :
  op = x09 \/ op = x0b ->
  0 <= index p -> index p + 3 < len (string p) ->
  index p + 3 < max_length p ->
  byte_at (string p) (index p) = op ->
  let i := index p in
  let v := byte_val (byte_at (string p) (i + 1))
           + 256 * byte_val (byte_at (string p) (i + 2))
           + 65536 * byte_val (byte_at (string p) (i + 3)) in
  parse_turn p =
    Continue (append (set_index p (i + 4))
                (if Byte.eqb op x09
                 then FontControlMove i (i + 4) v 0
                 else FontControlMove i (i + 4) 0 v)) /\
  0 <= v < 2 ^ 24.
Proof.
  intros Hop H0 Hlen Hmax Hbyte i v. split.
  - unfold parse_turn. read_next. rewrite Hbyte.
    destruct Hop as [-> | ->];
      [ change (byte_val x09) with 9 | change (byte_val x0b) with 11 ];
      cbn [Z.eqb orb Pos.eqb]; do 3 read_next;
      rewrite move_payload_value;
      unfold FontControlMove_init; cbn [fst snd Byte.eqb];
      norm_index; reflexivity.
  - subst v.
    pose proof (byte_val_range (byte_at (string p) (i + 1))).
    pose proof (byte_val_range (byte_at (string p) (i + 2))).
    pose proof (byte_val_range (byte_at (string p) (i + 3))).
    lia.
Qed.

(** A GCOL pair (control code 18) read from the string: the record keeps
    the two colours and drops the offset byte. *)
Lemma parse_turn_gcol_pair p :
  0 <= index p -> index p + 3 < len (string p) ->
  index p + 3 < max_length p ->
  byte_at (string p) (index p) = x12 ->
  let i := index p in
  parse_turn p =
    Continue (append (set_index p (i + 4))
                (FontControlGCOL i (i + 4)
                   (Some (byte_val (byte_at (string p) (i + 2))))
                   (Some (byte_val (byte_at (string p) (i + 1))))
                   None)).
Proof.
  intros H0 Hlen Hmax Hbyte i.
  unfold parse_turn. read_next. rewrite Hbyte.
  change (byte_val x12) with 18. cbn [Z.eqb orb Pos.eqb].
  do 3 read_next. unfold FontControlGCOL_init; cbn [fst snd].
  norm_index. reflexivity.
Qed.

Lemma len_app {A} (l l' : list A) : len (l ++ l') = len l + len l'.
Proof. unfold len. rewrite length_app. lia. Qed.

Lemma len_cons {A} (a : A) (l : list A) : len (a :: l) = 1 + len l.
Proof. unfold len. cbn [length]. lia. Qed.

Lemma len_nonneg {A} (l : list A) : 0 <= len l.
Proof. unfold len. lia. Qed.

Lemma byte_at_app (pre : bytes) (b : byte) (post : bytes) :
  byte_at (pre ++ b :: post) (len pre) = b.
Proof.
  unfold byte_at, len. rewrite Nat2Z.id.
  rewrite app_nth2 by lia. rewrite Nat.sub_diag. reflexivity.
Qed.

(** The comment loop on a body of printable bytes that runs up to the end of
    the string or to [max_length]: the read that finds the end still moves
    the index one further. *)
Lemma read_comment_to_end (body : bytes) :
  forall (fuel : nat) p (pre rest acc : bytes),
    Forall (fun b => 32 <= byte_val b) body ->
    string p = pre ++ body ++ rest ->
    index p = len pre ->
    len pre + len body <= max_length p ->
    rest = [] \/ max_length p = len pre + len body ->
    (length body < fuel)%nat ->
    read_comment fuel p acc
    = Some (set_index p (len pre + len body + 1), acc ++ body).
Proof.
  induction body as [|b body IH]; intros fuel p pre rest acc Hall Hs Hi Hmax Hend Hfuel.
  - destruct fuel as [|fuel]; [cbn in Hfuel; lia|].
    cbn [read_comment].
    rewrite read_byte_end.
    + change (byte_val x00 <? 32) with true. cbn iota.
      rewrite app_nil_r. rewrite Hi. change (len (@nil byte)) with 0.
      rewrite Z.add_0_r. reflexivity.
    + rewrite Hs, Hi. cbn [app] in *. change (len (@nil byte)) with 0 in *.
      destruct Hend as [-> | ->]; [left; rewrite app_nil_r; lia | right; lia].
  - destruct fuel as [|fuel]; [cbn in Hfuel; lia|].
    inversion Hall as [|? ? Hb Hall']; subst.
    cbn [read_comment].
    rewrite len_cons in *.
    pose proof (len_nonneg body). pose proof (len_nonneg pre).
    pose proof (len_nonneg rest).
    rewrite read_byte_in.
    2: lia.
    2: { rewrite Hs, Hi. cbn [app]. rewrite len_app, len_cons.
         pose proof (len_nonneg (body ++ rest)). lia. }
    2: lia.
    rewrite Hs, Hi. cbn [app]. rewrite byte_at_app.
    replace (byte_val b <? 32) with false by lia.
    rewrite (IH fuel (set_index p (len pre + 1)) (pre ++ [b]) rest (acc ++ [b])).
    + cbn [set_index sequence string max_length index].
      rewrite len_app, len_cons. change (len (@nil byte)) with 0.
      rewrite <- !app_assoc. cbn [app].
      replace (len pre + (1 + 0) + len body + 1)
        with (len pre + (1 + len body) + 1) by lia.
      reflexivity.
    + exact Hall'.
    + cbn [set_index string]. rewrite Hs. rewrite <- app_assoc. reflexivity.
    + cbn [set_index index]. rewrite len_app, len_cons.
      change (len (@nil byte)) with 0. lia.
    + cbn [set_index max_length]. rewrite len_app, len_cons.
      change (len (@nil byte)) with 0. lia.
    + cbn [set_index max_length]. rewrite len_app, len_cons.
      change (len (@nil byte)) with 0.
      destruct Hend as [-> | ->]; [left; reflexivity | right; lia].
    + cbn [length] in Hfuel. lia.
Qed.

(** C10. A comment (control code 21) whose body of printable bytes runs up
    to the exhaustion position [E] (the end of the string, or [max_length]
    if that is nearer) with no terminating byte below 32 is emitted with
    [index_end = E + 1]: the read that finds the end returns 0 and still
    moves the index. When the comment ends the string, its [index_end] is
    one more than the length of the string. *)
Theorem parse_comment_overruns p (body rest : bytes)
  (max_length_ : option Z) :
  Forall (fun b => 32 <= byte_val b) body ->
  let string_ := x15 :: body ++ rest in
  let E := 1 + len body in
  Z.min (len string_) (parse_max_length max_length_) = E ->
  exists p',
    parse p string_ max_length_ = Some (Ok p') /\
    sequence p' = sequence p ++ [FontControlComment 0 (E + 1) body] /\
    index p' = E + 1 /\
    (rest = [] -> len string_ < E + 1).
Proof.
  intros Hall string_ E HE.
  pose proof (len_nonneg body) as Hb. pose proof (len_nonneg rest) as Hr.
  assert (Hlen : len string_ = 1 + len body + len rest).
  { subst string_. rewrite len_cons, len_app. lia. }
  set (M := parse_max_length max_length_) in *.
  assert (Hend : rest = [] \/ M = 1 + len body).
  { destruct rest as [|r rest]; [left; reflexivity|right].
    rewrite len_cons in *. pose proof (len_nonneg rest). lia. }
  assert (HM : 1 + len body <= M) by lia.
  eexists. split; [|split; [|split]].
  - unfold parse. fold M. fold string_.
    set (p0 := {| sequence := sequence p; string := string_; index := 0;
                  max_length := M |}).
    set (p1 := append (set_index p0 (E + 1))
                 (FontControlComment 0 (E + 1) body)).
    assert (H1 : parse_turn p0 = Continue p1).
    { subst p1. unfold parse_turn.
      rewrite read_byte_in by (subst p0; cbn [index string max_length]; lia).
      change (byte_at (string p0) (index p0)) with x15.
      change (byte_val x15) with 21. cbn [Z.eqb orb Pos.eqb].
      rewrite (read_comment_to_end body _ _ [x15] rest []);
        try reflexivity; try assumption;
        try (change (len [x15]) with 1; cbn [set_index max_length p0]; lia).
      subst p0 string_. cbn [string set_index length].
      rewrite length_app. lia. }
    assert (H2 : parse_turn p1 = Break p1).
    { subst p1 p0. unfold parse_turn. rewrite read_byte_end.
      2: { cbn [append set_sequence set_index index string max_length].
           lia. }
      change (byte_val x00) with 0. cbn [Z.eqb orb].
      unfold step_back.
      cbn [append set_sequence set_index index string max_length sequence].
      replace (truthy (E + 1 + 1)) with true
        by (unfold truthy; symmetry; apply negb_true_iff; lia).
      replace (E + 1 + 1 - 1) with (E + 1) by lia. reflexivity. }
    change (S (length string_)) with (S (S (length (body ++ rest)))).
    cbn [parse_loop]. rewrite H1, H2. reflexivity.
  - reflexivity.
  - reflexivity.
  - intros ->. change (len (@nil byte)) with 0 in Hlen. lia.
Qed.

(** *** Every parse ends *)

Lemma align_ge p : 0 <= index p -> index p <= index (align p).
Proof.
  intros H. unfold align. cbn [index set_index].
  rewrite <- Z.ldiff_land.
  replace 3 with (Z.ones 2) at 2 by reflexivity.
  rewrite Z.ldiff_ones_r by lia.
  rewrite Z.shiftl_mul_pow2, Z.shiftr_div_pow2 by lia.
  change (2 ^ 2) with 4.
  pose proof (Z.div_mod (index p + 3) 4).
  pose proof (Z.mod_pos_bound (index p + 3) 4). lia.
Qed.

Lemma same_input_refl p : same_input p p.
Proof. repeat split. Qed.

Lemma same_input_trans p p' p'' :
  same_input p p' -> same_input p' p'' -> same_input p p''.
Proof.
  unfold same_input. intros (A & B & C) (A' & B' & C').
  repeat split; congruence.
Qed.

Lemma same_input_set_index p (i : Z) : same_input p (set_index p i).
Proof. repeat split. Qed.

Lemma read_word_frame p (signed : bool) (v : option Z) p' :
  read_word p signed = Ok (v, p') ->
  same_input p p' /\ index p <= index p'.
Proof.
  unfold read_word. destruct (_ || _).
  - intros [= <- <-]. split; [apply same_input_refl | lia].
  - destruct (unpack_word _ _); cbn [bind]; [|discriminate].
    intros [= <- <-]. split; [apply same_input_set_index|].
    cbn [index set_index]. lia.
Qed.

Lemma read_matrix_frame p (with_translation : bool) (m : Matrix) p' :
  read_matrix p with_translation = Ok (m, p') ->
  same_input p p' /\ index p <= index p'.
Proof.
  unfold read_matrix, read_signedword.
  destruct (read_word p true) as [[a p1]|] eqn:E1; cbn [bind]; [|discriminate].
  destruct (read_word p1 true) as [[b p2]|] eqn:E2; cbn [bind]; [|discriminate].
  destruct (read_word p2 true) as [[c p3]|] eqn:E3; cbn [bind]; [|discriminate].
  destruct (read_word p3 true) as [[d p4]|] eqn:E4; cbn [bind]; [|discriminate].
  apply read_word_frame in E1, E2, E3, E4.
  destruct E1 as [S1 I1], E2 as [S2 I2], E3 as [S3 I3], E4 as [S4 I4].
  assert (S04 : same_input p p4)
    by (eauto using same_input_trans).
  destruct with_translation.
  - destruct (read_word p4 true) as [[e p5]|] eqn:E5; cbn [bind];
      [|discriminate].
    destruct (read_word p5 true) as [[f p6]|] eqn:E6; cbn [bind];
      [|discriminate].
    apply read_word_frame in E5, E6.
    destruct E5 as [S5 I5], E6 as [S6 I6].
    destruct a, b, c, d; try discriminate.
    intros [= _ <-]. split; [eauto using same_input_trans | lia].
  - cbn [bind]. destruct a, b, c, d; try discriminate.
    intros [= _ <-]. split; [assumption | lia].
Qed.

Lemma read_comment_frame (fuel : nat) :
  forall p (acc : bytes) p' (comment : bytes),
    read_comment fuel p acc = Some (p', comment) ->
    same_input p p' /\ index p < index p'.
Proof.
  induction fuel as [|fuel IH]; intros p acc p' comment; [discriminate|].
  cbn [read_comment].
  destruct (read_byte p) as [b q] eqn:E.
  pose proof (read_byte_snd p) as Hq. rewrite E in Hq. cbn [snd] in Hq.
  subst q. destruct (byte_val b <? 32).
  - intros [= <- _]. split; [apply same_input_set_index|].
    cbn [index set_index]. lia.
  - intros H. apply IH in H. destruct H as [S I].
    cbn [index set_index] in I.
    split; [|lia].
    eapply same_input_trans; [apply same_input_set_index | exact S].
Qed.

Lemma read_comment_total (fuel : nat) :
  forall p (acc : bytes),
    Z.max 0 (len (string p) - index p) < Z.of_nat fuel ->
    exists r, read_comment fuel p acc = Some r.
Proof.
  induction fuel as [|fuel IH]; intros p acc Hfuel; [lia|].
  cbn [read_comment].
  destruct (read_byte p) as [b q] eqn:E.
  pose proof (read_byte_snd p) as Hq. rewrite E in Hq. cbn [snd] in Hq.
  subst q. destruct (byte_val b <? 32) eqn:Hb; [eauto|].
  apply IH. cbn [string index set_index].
  assert (Hnz : byte_val (fst (read_byte p)) <> 0) by (rewrite E; cbn; lia).
  apply read_byte_nonzero in Hnz. lia.
Qed.


Ltac take_byte :=
  match goal with
  | |- context [read_byte ?q] =>
      let b := fresh "b" in
      let q' := fresh "q" in
      let E := fresh "E" in
      let H := fresh "H" in
      destruct (read_byte q) as [b q'] eqn:E;
      pose proof (read_byte_snd q) as H; rewrite E in H; cbn [snd] in H;
      subst q'; clear E
  end.

(** One turn: either it ends the loop and leaves the sequence alone, or it
    raises, or it has read a byte of the string, moved the index forward and
    added one record that is not a string, or put one character into the
    string at the end of the sequence. *)
Lemma parse_turn_cases p :
  0 <= index p ->
  match parse_turn p with
  | Continue p' =>
      string p' = string p /\ max_length p' = max_length p /\
      index p < index p' /\ index p < len (string p) /\
      ((exists fc, isinstance_String fc = false /\
                   sequence p' = sequence p ++ [fc]) \/
       (exists b, p' = accumulate (set_index p (index p + 1)) (index p) b))
  | Break p' => sequence p' = sequence p
  | Raised _ => True
  | Unfinished => False
  end.
Proof.
  intros H0. unfold parse_turn.
  destruct (read_byte p) as [b q] eqn:E.
  pose proof (read_byte_snd p) as Hq. rewrite E in Hq. cbn [snd] in Hq.
  subst q.
  destruct ((byte_val b =? 0) || (byte_val b =? 10) || (byte_val b =? 13))
    eqn:Hterm.
  { unfold step_back. destruct (truthy _); reflexivity. }
  assert (Hnz : byte_val (fst (read_byte p)) <> 0) by (rewrite E; cbn; lia).
  apply read_byte_nonzero in Hnz. destruct Hnz as (Hlen & Hmax & _).
  clear E Hterm.
  destruct ((byte_val b =? 9) || (byte_val b =? 11)).
  { repeat take_byte. cbn [index set_index string max_length append set_sequence sequence].
    repeat split; try lia. left. eexists. split; [|reflexivity].
    destruct (byte_val b =? 9); reflexivity. }
  destruct (byte_val b =? 17).
  { repeat take_byte. cbn [index set_index string max_length append set_sequence sequence].
    repeat split; try lia. left. eexists. split; [|reflexivity].
    destruct (truthy _); reflexivity. }
  destruct (byte_val b =? 18).
  { repeat take_byte. cbn [index set_index string max_length append set_sequence sequence].
    repeat split; try lia. left. eexists. split; [|reflexivity]. reflexivity. }
  destruct (byte_val b =? 19).
  { repeat take_byte. cbn [index set_index string max_length append set_sequence sequence].
    repeat split; try lia. left. eexists. split; [|reflexivity]. reflexivity. }
  destruct (byte_val b =? 21).
  { destruct (read_comment_total (S (length (string (set_index p (index p + 1)))))
                (set_index p (index p + 1)) []) as [[q c] Hc].
    { cbn [string index set_index]. unfold len. lia. }
    rewrite Hc. apply read_comment_frame in Hc.
    destruct Hc as [(S1 & S2 & S3) I]. cbn [index set_index string max_length sequence] in *.
    cbn [append set_sequence string max_length index sequence].
    repeat split; try congruence; try lia.
    left. eexists. split; [|rewrite S1; reflexivity]. reflexivity. }
  destruct (byte_val b =? 25).
  { repeat take_byte. cbn [index set_index string max_length append set_sequence sequence].
    repeat split; try lia. left. eexists. split; [|reflexivity]. reflexivity. }
  destruct (byte_val b =? 26).
  { repeat take_byte. cbn [index set_index string max_length append set_sequence sequence].
    repeat split; try lia. left. eexists. split; [|reflexivity]. reflexivity. }
  destruct ((byte_val b =? 27) || (byte_val b =? 28)).
  { destruct (read_matrix _ _) as [[m q]|e] eqn:Hm; [|exact I].
    apply read_matrix_frame in Hm. destruct Hm as [(S1 & S2 & S3) I].
    pose proof (align_ge (set_index p (index p + 1))) as Ha.
    cbn [index set_index string max_length sequence align] in *.
    cbn [append set_sequence string max_length index sequence].
    repeat split; try congruence; try lia.
    left. eexists. split; [|rewrite S1; reflexivity]. reflexivity. }
  destruct (byte_val b <? 32).
  { reflexivity. }
  assert (Hacc : forall q s, string (accumulate q s b) = string q /\
                        max_length (accumulate q s b) = max_length q /\
                        index (accumulate q s b) = index q).
  { intros q s. unfold accumulate.
    destruct (rev (sequence q)) as [|[] ?]; repeat split. }
  destruct (Hacc (set_index p (index p + 1)) (index p)) as (A1 & A2 & A3).
  rewrite A1, A2, A3. cbn [index set_index string max_length].
  repeat split; try lia. right. exists b. reflexivity.
Qed.

Lemma parse_loop_total (fuel : nat) :
  forall p,
    0 <= index p ->
    Z.max 0 (len (string p) - index p) < Z.of_nat fuel ->
    exists r, parse_loop fuel p = Some r.
Proof.
  induction fuel as [|fuel IH]; intros p H0 Hfuel; [lia|].
  cbn [parse_loop]. pose proof (parse_turn_cases p H0) as Hc.
  destruct (parse_turn p) as [p'|p'|e|]; eauto; [|contradiction].
  destruct Hc as (Hs & _ & Hi & Hl & _).
  apply IH; [lia|]. rewrite Hs. lia.
Qed.

(** [parse] returns, or raises, for every string and every [max_length]:
    the turns allowed are never used up. *)
Theorem parse_total p (string_ : bytes) (max_length_ : option Z) :
  exists r, parse p string_ max_length_ = Some r.
Proof.
  unfold parse. apply parse_loop_total; cbn [index string]; unfold len; lia.
Qed.


(** *** The spans of the strings a parse makes *)

Lemma open_string_app_other (l : list FontControl) (fc : FontControl) :
  isinstance_String fc = false -> open_string (l ++ [fc]) = None.
Proof.
  intros H. unfold open_string. rewrite rev_unit.
  destruct fc; try reflexivity; discriminate.
Qed.

Lemma accumulate_spans p (start : Z) (b : byte) :
  spans_in_step (set_sequence (set_index p start) (sequence p)) ->
  index p = start + 1 ->
  spans_in_step (accumulate p start b).
Proof.
  unfold spans_in_step, accumulate, open_string.
  cbn [sequence index set_sequence set_index].
  intros [Hall Hopen] Hi.
  assert (Hrev : sequence p = rev (rev (sequence p)))
    by (symmetry; apply rev_involutive).
  destruct (rev (sequence p)) as [|last before] eqn:Er.
  - cbn [append set_sequence sequence index]. rewrite rev_unit. split.
    + apply Forall_app. split; [exact Hall|].
      constructor; [|constructor]. cbn. change (len [b]) with 1. lia.
    + reflexivity.
  - cbn [rev] in Hrev. rewrite Hrev in Hall.
    apply Forall_app in Hall. destruct Hall as [Hbefore Hlast].
    destruct last;
      try (cbn [append set_sequence sequence index]; rewrite rev_unit; split;
           [ apply Forall_app; split;
             [ rewrite Hrev; apply Forall_app; split; assumption
             | constructor; [|constructor]; cbn; change (len [b]) with 1; lia ]
           | reflexivity ]).
    cbn [set_sequence sequence index]. rewrite rev_unit. split.
    + apply Forall_app. split; [exact Hbefore|].
      constructor; [|constructor]. cbn.
      inversion Hlast as [|? ? Hspan _]; subst. cbn in Hspan.
      unfold len in *. rewrite length_app. cbn [length]. lia.
    + reflexivity.
Qed.

Lemma parse_turn_spans p :
  0 <= index p -> spans_in_step p ->
  match parse_turn p with
  | Continue p' => spans_in_step p'
  | Break p' => Forall string_span_ok (sequence p')
  | _ => True
  end.
Proof.
  intros H0 Hinv. pose proof (parse_turn_cases p H0) as Hc.
  destruct (parse_turn p) as [p'|p'|e|]; try exact I.
  - destruct Hc as (_ & _ & _ & _ & [(fc & Hfc & Hseq) | (b & ->)]).
    + unfold spans_in_step. rewrite Hseq.
      rewrite open_string_app_other by exact Hfc. split; [|exact I].
      apply Forall_app. split; [apply Hinv|].
      constructor; [|constructor]. destruct fc; try exact I; discriminate.
    + apply accumulate_spans; [|cbn [index set_index]; lia].
      exact Hinv.
  - rewrite Hc. apply Hinv.
Qed.

Lemma parse_loop_spans (fuel : nat) :
  forall p p',
    0 <= index p -> spans_in_step p ->
    parse_loop fuel p = Some (Ok p') ->
    Forall string_span_ok (sequence p').
Proof.
  induction fuel as [|fuel IH]; intros p p' H0 Hinv; [discriminate|].
  cbn [parse_loop].
  pose proof (parse_turn_spans p H0 Hinv) as Hs.
  pose proof (parse_turn_cases p H0) as Hc.
  destruct (parse_turn p) as [q|q|e|]; try discriminate.
  - apply IH; [|exact Hs]. destruct Hc as (_ & _ & Hi & _). lia.
  - intros [= <-]. exact Hs.
Qed.

(** X6. A parse that starts from a sequence whose strings have the right spans
    and which does not end in a string (an empty one, for instance) gives
    strings with the right spans: [index_end - index_start = len(string)]. *)
Theorem parse_string_spans p (string_ : bytes) (max_length_ : option Z) :
  Forall string_span_ok (sequence p) ->
  open_string (sequence p) = None ->
  exists r, parse p string_ max_length_ = Some r /\
    forall p', r = Ok p' -> Forall string_span_ok (sequence p').
Proof.
  intros Hall Hopen.
  destruct (parse_total p string_ max_length_) as [r Hr].
  exists r. split; [exact Hr|]. intros p' ->.
  unfold parse in Hr. eapply parse_loop_spans; [| |exact Hr].
  - cbn [index]. lia.
  - unfold spans_in_step. cbn [sequence index]. rewrite Hopen. auto.
Qed.


End Parser_properties.

(** *** The parser on particular strings *)

(** C4. A matrix record cut one byte short of its first word,
    [parse(b'\x1b\x00\x00\x00\x01\x00\x00')]: after the alignment the index
    is 4 and three bytes are left. [read_signedword] does not return [None]
    there: the test [index + 3 > len(string)] lets the read through,
    [struct.unpack] gets three bytes and the parse ends in [struct.error].
    Called in that state, [read_word] and [read_signedword] raise as well;
    and with three bytes left before a [max_length] of 7 and an eighth byte
    in the string, [read_word] returns a value and moves the index to 8,
    past [max_length]. *)
Theorem read_word_three_bytes_left :
  let string_ := [x1b; x00; x00; x00; x01; x00; x00] in
  let p := {| sequence := []; string := string_; index := 4;
              max_length := Z.shiftl 1 20 |} : FontControlParser in
  let q := {| sequence := []; string := string_ ++ [x00]; index := 4;
              max_length := 7 |} : FontControlParser in
  parse new_parser string_ None = Some (Raise StructError) /\
  len (string p) - index p = 3 /\
  read_word p false = Raise StructError /\
  read_signedword p = Raise StructError /\
  max_length q - index q = 3 /\
  read_word q false = Ok (Some 1, set_index q 8).
Proof. cbv zeta. repeat split. Qed.

(** C5. [parse(b'\x12\x01\x02\x03')] gives one GCOL record, with bg 1 and
    fg 2 and with [offset = None]: the constructor drops the offset byte 3.
    Applying the record to a new context therefore calls
    [select_colour(fg=2, bg=1, fgoffset=None)] and leaves [fgoffset = 0] and
    [fg = 2], where [select_colour(fg=2, bg=1, fgoffset=3)] would leave
    [fgoffset = 3] and [fg = 5]. *)
Theorem gcol_pair_offset_not_applied :
  let ctrl := FontControlGCOL 0 4 (Some 2) (Some 1) None in
  let applied := FontControl_apply ctrl base_context in
  let claimed := select_colour base_context (Some 1) (Some 2) (Some 3)
                   None None in
  (exists p', parse new_parser [x12; x01; x02; x03] None = Some (Ok p') /\
              sequence p' = [ctrl]) /\
  applied = FontControlBase_apply ctrl
              (select_colour base_context (Some 1) (Some 2) None None None) /\
  fgoffset applied = 0 /\ fg applied = 2 /\
  fgoffset claimed = 3 /\ fg claimed = 5.
Proof.
  cbv zeta. split; [eexists; split; reflexivity|]. repeat split.
Qed.

(** C7. [parse(b'hello')] followed by [parse(b'ab')] on the same parser:
    the second parse finds the string record of the first at the end of the
    sequence, appends its two characters to it and sets its [index_end] to
    its own index. The record ends as [(0, 2, b'helloab')]: a span of 2 for
    7 bytes. *)
Theorem parse_twice_string_span :
  let hello := [x68; x65; x6c; x6c; x6f] in
  let ab := [x61; x62] in
  let p1 := {| sequence := [FontControlString 0 5 hello]; string := hello;
               index := 5; max_length := 1048576 |} in
  let p2 := {| sequence := [FontControlString 0 2 (hello ++ ab)];
               string := ab; index := 2; max_length := 1048576 |} in
  parse new_parser hello None = Some (Ok p1) /\
  parse p1 ab None = Some (Ok p2) /\
  ~ Forall string_span_ok (sequence p2).
Proof.
  cbv zeta. split; [reflexivity|]. split; [reflexivity|].
  intros H. inversion H as [|? ? Hspan _]; subst.
  cbn in Hspan. discriminate.
Qed.

(** A move at the start of [b'\x09\x00\x00\x80']. *)
Lemma parse_turn_move_unsigned_witness :
  let p := {| sequence := []; string := [x09; x00; x00; x80]; index := 0;
              max_length := Z.shiftl 1 20 |} : FontControlParser in
  parse_turn p
  = Continue (append (set_index p 4) (FontControlMove 0 4 8388608 0)) /\
  0 <= 8388608 < 2 ^ 24.
Proof.
  cbv zeta.
  apply (parse_turn_move_unsigned
           {| sequence := []; string := [x09; x00; x00; x80]; index := 0;
              max_length := Z.shiftl 1 20 |} x09).
  - left; reflexivity.
  - cbn; lia.
  - cbn; lia.
  - cbn; lia.
  - reflexivity.
Defined.

(** C9, counterexample. [parse(b'\x09\x00\x00\x80')]: the payload encodes
    [v = 2^23]; the record holds [dx = 8388608], not [v - 2^24 = -8388608]. *)
Lemma parse_move_high_bit_positive :
  exists p',
    parse new_parser [x09; x00; x00; x80] None = Some (Ok p') /\
    sequence p' = [FontControlMove 0 4 8388608 0] /\
    8388608 >= 2 ^ 23 /\
    8388608 <> 8388608 - 2 ^ 24.
Proof.
  eexists. split; [reflexivity|]. split; [reflexivity|]. split; lia.
Qed.

(** [parse(b'\x15abc')]: the comment record spans 0 to 5 in a string of 4
    bytes. *)
Lemma parse_comment_overruns_witness :
  exists p',
    parse new_parser [x15; x61; x62; x63] None = Some (Ok p') /\
    sequence p' = [FontControlComment 0 5 [x61; x62; x63]] /\
    index p' = 5 /\
    (@nil byte = [] -> len [x15; x61; x62; x63] < 5).
Proof.
  apply (parse_comment_overruns new_parser [x61; x62; x63] [] None).
  - repeat constructor; unfold byte_val; cbn; lia.
  - reflexivity.
Defined.

(** [parse(b'hello')] on a new parser. *)
Lemma parse_string_spans_witness :
  exists r, parse new_parser [x68; x65; x6c; x6c; x6f] None = Some r /\
    forall p', r = Ok p' -> Forall string_span_ok (sequence p').
Proof.
  apply (parse_string_spans new_parser [x68; x65; x6c; x6c; x6f] None).
  - constructor.
  - reflexivity.
Defined.

(** ** Splitting and spacing *)

Section Spacing_properties.

Context {structs : Structs}.

(** In the word branch of [apply_spacing] the test compares the integer
    [s[-1]] with the bytes value [b' ']: it is never true. *)
Lemma last_byte_never_space (s : bytes) :
  py_eq (PyInt (byte_val (List.last s x00))) (PyBytes [x20]) = false.
Proof. reflexivity. Qed.

Lemma spaced_pieces_words_no_move_space (sp : FontSpacing)
  (parts : list bytes) :
  forall (start nparts part offset : Z),
    Forall (fun ctrl => is_MoveSpace ctrl = false)
      (spaced_pieces start sp true nparts part parts offset).
Proof.
  induction parts as [|s parts IH]; intros start nparts part offset;
    cbn [spaced_pieces]; [constructor|].
  cbn [andb negb].
  destruct (nonempty _); cbn [negb]; [|apply IH].
  rewrite last_byte_never_space. cbn [app].
  constructor; [reflexivity | apply IH].
Qed.

Lemma split_pieces_no_move_space (sc : SplitChar) (parts : list bytes) :
  forall (start nparts part offset : Z),
    Forall (fun ctrl => is_MoveSpace ctrl = false)
      (split_pieces start sc nparts part parts offset).
Proof.
  induction parts as [|s parts IH]; intros start nparts part offset;
    cbn [split_pieces]; [constructor|].
  assert (Hpiece : forall i j,
            Forall (fun ctrl => is_MoveSpace ctrl = false)
              (if nonempty s then [FontControlString i j s] else []))
    by (intros; destruct (nonempty s); repeat constructor).
  destruct sc as [|sep]; [|destruct (negb _)];
    apply Forall_app; split; try apply Hpiece; try apply IH.
  constructor; [reflexivity | apply IH].
Qed.

Lemma _apply_splits_no_move_space (seq : list FontControl)
  (split_char : option SplitChar) :
  Forall (fun ctrl => is_MoveSpace ctrl = false) seq ->
  Forall (fun ctrl => is_MoveSpace ctrl = false)
    (_apply_splits seq split_char).
Proof.
  induction 1 as [|ctrl seq Hc Hseq IH]; cbn [_apply_splits]; [constructor|].
  destruct ctrl, split_char as [sc|]; try (constructor; assumption).
  destruct (split_char_bool _); [|constructor; assumption].
  destruct (len _ =? 1); [constructor; assumption|].
  apply Forall_app. split; [apply split_pieces_no_move_space | exact IH].
Qed.

(** With a spacing whose character offsets are both zero, [apply_spacing]
    adds no MoveSpace record at all, whatever the word offsets are and
    wherever the spaces are. *)
Lemma apply_spacing_words_no_move_space (seq : list FontControl)
  (sp : FontSpacing) (split_char : option SplitChar) :
  char_xoffset sp = 0 -> char_yoffset sp = 0 ->
  Forall (fun ctrl => is_MoveSpace ctrl = false) seq ->
  Forall (fun ctrl => is_MoveSpace ctrl = false)
    (apply_spacing seq (Some sp) split_char).
Proof.
  intros Hx Hy Hseq. unfold apply_spacing.
  apply _apply_splits_no_move_space with (split_char := split_char) in Hseq.
  induction Hseq as [|ctrl l Hc Hl IH]; cbn [flat_map]; [constructor|].
  apply Forall_app. split; [|exact IH].
  destruct ctrl; try (constructor; [assumption | constructor]).
  destruct (FontSpacing_bool sp); [|repeat constructor].
  unfold space_string. rewrite Hx, Hy. cbn [truthy Z.eqb negb orb].
  apply spaced_pieces_words_no_move_space.
Qed.

End Spacing_properties.

(** C6. The string of the repository's own spacing tests, [b'plain string'],
    with [FontSpacing(word=(2, 0))]: the character offsets are zero, the
    piece [b'plain '] ends in a space, and it is followed at once by
    [b'string'], with no MoveSpace record between them. The test
    [s[-1] == b' '] compares an integer with a bytes value and is false. *)
Theorem apply_spacing_word_split_no_move_space :
  let plain := [x70; x6c; x61; x69; x6e; x20] in
  let string_ := [x73; x74; x72; x69; x6e; x67] in
  let spacing := FontSpacing_init (Some (2, 0)) None in
  let parsed := [FontControlString 0 12 (plain ++ string_)] in
  parse new_parser (plain ++ string_) None
  = Some (Ok {| sequence := parsed; string := plain ++ string_;
                index := 12; max_length := 1048576 |}) /\
  FontSpacing_bool spacing = true /\
  char_xoffset spacing = 0 /\ char_yoffset spacing = 0 /\
  List.last plain x00 = x20 /\
  apply_spacing parsed (Some spacing) None
  = [FontControlString 0 6 plain; FontControlString 6 12 string_].
Proof. cbv zeta. repeat split. Qed.

(** ** Sizing *)

Section Sizing_properties.

Context {structs : Structs} {hooks : Hooks}.

(** *** What [apply] leaves alone *)

Lemma same_style_refl (c : FontContext) : same_style c c.
Proof. repeat split. Qed.

Lemma same_style_trans (c c' c'' : FontContext) :
  same_style c c' -> same_style c' c'' -> same_style c c''.
Proof.
  unfold same_style. intros H H'.
  repeat match goal with H : _ /\ _ |- _ => destruct H end.
  repeat split; congruence.
Qed.

Lemma FontControlBase_apply_frame (ctrl : FontControl) (c : FontContext) :
  same_style c (FontControlBase_apply ctrl c) /\
  limitx (FontControlBase_apply ctrl c) = limitx c /\
  limity (FontControlBase_apply ctrl c) = limity c.
Proof.
  unfold FontControlBase_apply.
  destruct (FontControl_size ctrl c) as [[[[[? ?] ?] ?] ?] ?].
  repeat split.
Qed.

Lemma select_colour_limits (c : FontContext)
  (bg_ fg_ fgoffset_ bgpal_ fgpal_ : option Z) :
  limitx (select_colour c bg_ fg_ fgoffset_ bgpal_ fgpal_) = limitx c /\
  limity (select_colour c bg_ fg_ fgoffset_ bgpal_ fgpal_) = limity c.
Proof.
  unfold select_colour.
  destruct fg_, bg_, fgoffset_, fgpal_, bgpal_; split; reflexivity.
Qed.

(** No record changes the limits. *)
Lemma FontControl_apply_limits (ctrl : FontControl) (c : FontContext) :
  limitx (FontControl_apply ctrl c) = limitx c /\
  limity (FontControl_apply ctrl c) = limity c.
Proof.
  destruct ctrl; cbn [FontControl_apply];
    try (destruct (font_bounds c None) as [[[[[? ?] ?] ?] ?] ?]);
    match goal with
    | |- context [FontControlBase_apply ?r ?d] =>
        destruct (FontControlBase_apply_frame r d) as (_ & -> & ->)
    end;
    try (split; reflexivity).
  - apply select_colour_limits.
  - apply select_colour_limits.
Qed.

Lemma FontControl_apply_limits_set (ctrl : FontControl) (c : FontContext) :
  limits_set c -> limits_set (FontControl_apply ctrl c).
Proof.
  unfold limits_set.
  destruct (FontControl_apply_limits ctrl c) as [-> ->]. auto.
Qed.

(** Strings, moves, comments and underlines change neither the transform
    nor the font nor the colours. *)
Lemma FontControl_apply_style (ctrl : FontControl) (c : FontContext) :
  keeps_style ctrl = true -> same_style c (FontControl_apply ctrl c).
Proof.
  destruct ctrl; cbn [keeps_style]; intros H; try discriminate;
    cbn [FontControl_apply];
    try (destruct (font_bounds c None) as [[[[[? ?] ?] ?] ?] ?]);
    match goal with
    | |- context [FontControlBase_apply ?r ?d] =>
        destruct (FontControlBase_apply_frame r d) as (Hs & _ & _)
    end;
    exact Hs.
Qed.


(** *** The walk of [size] *)

Lemma beyond_limits_answers (c : FontContext) :
  limits_set c -> exists b, beyond_limits c = Ok b.
Proof.
  unfold limits_set, beyond_limits. intros [Hx Hy].
  destruct (limitx c); [|discriminate]. destruct (limity c); [|discriminate].
  destruct (_ || _); eauto.
Qed.

(** The walk returns, and what it returns keeps every property [P] of the
    context that [apply] keeps for the records walked, provided the nested
    call does so for the strings of two bytes or more. *)
Lemma size_walk_keeps (P : FontContext -> Prop) (Q : FontControl -> Prop)
  (recurse : FontContext -> list FontControl -> option (result size_result))
  (split_char : option SplitChar) :
  (forall c, P c -> limits_set c) ->
  (forall ctrl c, Q ctrl -> P c -> P (FontControl_apply ctrl c)) ->
  (forall c ctrl, P c -> Q ctrl -> ~ short_string ctrl ->
     exists t c', recurse c [ctrl] = Some (Ok (t, c')) /\ P c') ->
  forall ctrls, Forall Q ctrls ->
  forall self lc lsp (a b n : Z), P self -> P lsp ->
    exists t c',
      size_walk recurse split_char ctrls self lc lsp a b n = Some (Ok (t, c'))
      /\ P c'.
Proof.
  intros Hlim Happly Hrec ctrls Hall.
  induction Hall as [|ctrl ctrls Hq Hall IH]; intros self lc lsp a b n Hself Hlsp.
  - cbn [size_walk]. eauto.
  - cbn [size_walk]. unfold copy.
    pose proof (Happly ctrl self Hq Hself) as Hnext.
    destruct (beyond_limits_answers _ (Hlim _ Hnext)) as [bl Hbl].
    destruct ctrl;
      match goal with
      | |- context [FontControlString ?i ?j ?s] => idtac
      | _ =>
          cbv beta iota zeta; rewrite Hbl; destruct bl;
          [ destruct (split_char_bool split_char && negb (is_minus_one split_char));
            [eauto | change (len (@nil byte) >? 1) with false; cbv iota; eauto]
          | match goal with
            | |- context [if ?c then _ else _] => destruct c
            end; apply IH; assumption ]
      end.
    cbv beta iota zeta. rewrite Hbl. destruct bl.
    + destruct (split_char_bool split_char && negb (is_minus_one split_char));
        [eauto|].
      match goal with
      | |- context [len ?s >? 1] => destruct (len s >? 1) eqn:Hlen; [|eauto]
      end.
      destruct (Hrec self _ Hself Hq) as (t & c' & Hr & Hc').
      { cbn [short_string]. lia. }
      rewrite Hr. destruct t as [li ss]. eauto.
    + match goal with
      | |- context [if ?c then _ else _] => destruct c
      end; apply IH; assumption.
Qed.

(** *** The records [apply_spacing] hands to the walk *)

Lemma split_pieces_Forall (Q : FontControl -> Prop) (sc : SplitChar)
  (parts : list bytes) :
  (forall i j s, Q (FontControlString i j s)) ->
  forall (start nparts part offset : Z),
    Forall Q (split_pieces start sc nparts part parts offset).
Proof.
  intros HQ.
  induction parts as [|s parts IH]; intros start nparts part offset;
    cbn [split_pieces]; [constructor|].
  assert (Hpiece : forall i j,
            Forall Q (if nonempty s then [FontControlString i j s] else []))
    by (intros; destruct (nonempty s); repeat constructor; apply HQ).
  destruct sc as [|sep]; [|destruct (negb _)];
    apply Forall_app; split; try apply Hpiece; try apply IH.
  constructor; [apply HQ | apply IH].
Qed.

Lemma _apply_splits_Forall (Q : FontControl -> Prop)
  (seq : list FontControl) (split_char : option SplitChar) :
  (forall i j s, Q (FontControlString i j s)) ->
  Forall Q seq -> Forall Q (_apply_splits seq split_char).
Proof.
  intros HQ.
  induction 1 as [|ctrl seq Hc Hseq IH]; cbn [_apply_splits]; [constructor|].
  destruct ctrl, split_char as [sc|]; try (constructor; assumption).
  destruct (split_char_bool _); [|constructor; assumption].
  destruct (len _ =? 1); [constructor; assumption|].
  apply Forall_app. split; [apply split_pieces_Forall; exact HQ | exact IH].
Qed.

Lemma spaced_pieces_Forall (Q : FontControl -> Prop) (sp : FontSpacing)
  (word_split : bool) (parts : list bytes) :
  holds_of_pieces Q ->
  forall (start nparts part offset : Z),
    Forall Q (spaced_pieces start sp word_split nparts part parts offset).
Proof.
  intros (HS & HC & HM).
  induction parts as [|s parts IH]; intros start nparts part offset;
    cbn [spaced_pieces]; [constructor|].
  destruct (negb (nonempty _)); [apply IH|].
  constructor; [apply HS|]. apply Forall_app. split; [|apply IH].
  destruct (negb word_split).
  - constructor; [apply HC|]. destruct (_ && _); repeat constructor. apply HM.
  - destruct (py_eq _ _); repeat constructor. apply HM.
Qed.

Lemma apply_spacing_Forall (Q : FontControl -> Prop)
  (seq : list FontControl) (spacing : option FontSpacing)
  (split_char : option SplitChar) :
  holds_of_pieces Q ->
  Forall Q seq -> Forall Q (apply_spacing seq spacing split_char).
Proof.
  intros HQ Hseq. unfold apply_spacing.
  apply _apply_splits_Forall with (split_char := split_char) in Hseq;
    [|apply HQ].
  induction Hseq as [|ctrl l Hc Hl IH]; cbn [flat_map]; [constructor|].
  apply Forall_app. split; [|exact IH].
  destruct ctrl, spacing as [sp|]; try (constructor; [assumption|constructor]).
  destruct (FontSpacing_bool sp); [|repeat constructor; assumption].
  unfold space_string. destruct (_ || _); apply spaced_pieces_Forall; exact HQ.
Qed.

(** With no spacing, [apply_spacing] is [_apply_splits]. *)
Lemma apply_spacing_None (seq : list FontControl)
  (split_char : option SplitChar) :
  apply_spacing seq None split_char = _apply_splits seq split_char.
Proof.
  unfold apply_spacing.
  induction (_apply_splits seq split_char) as [|ctrl l IH]; [reflexivity|].
  cbn [flat_map]. rewrite IH. destruct ctrl; reflexivity.
Qed.

Lemma split_pieces_each_short (s : bytes) :
  forall (start nparts part offset : Z),
    Forall short_string
      (split_pieces start SplitEvery nparts part (bytes_each s) offset).
Proof.
  induction s as [|b s IH]; intros start nparts part offset;
    cbn [bytes_each map split_pieces]; [constructor|].
  cbn [nonempty app]. constructor; [|apply IH].
  cbn [short_string]. change (len [b]) with 1. lia.
Qed.

(** Split into single bytes, no string has two bytes or more. *)
Lemma _apply_splits_every_short (seq : list FontControl) :
  Forall short_string (_apply_splits seq (Some SplitEvery)).
Proof.
  induction seq as [|ctrl seq IH]; cbn [_apply_splits]; [constructor|].
  destruct ctrl; try (constructor; [exact I | exact IH]).
  cbn [split_char_bool].
  destruct (len (bytes_each string_) =? 1) eqn:E.
  - constructor; [|exact IH]. cbn [short_string].
    unfold bytes_each, len in *. rewrite length_map in E. lia.
  - apply Forall_app. split; [apply split_pieces_each_short | exact IH].
Qed.

(** *** [size] returns, and two levels of nesting are all it uses *)

Lemma size_walk_split_bytes (P : FontContext -> Prop)
  (Q : FontControl -> Prop)
  (recurse : FontContext -> list FontControl -> option (result size_result))
  (seq : list FontControl) (c : FontContext) :
  (forall c, P c -> limits_set c) ->
  (forall ctrl c, Q ctrl -> P c -> P (FontControl_apply ctrl c)) ->
  (forall i j s, Q (FontControlString i j s)) ->
  Forall Q seq -> P c ->
  exists t c',
    size_walk recurse (Some SplitEvery)
      (_apply_splits seq (Some SplitEvery)) c c c 0 0 0 = Some (Ok (t, c'))
    /\ P c'.
Proof.
  intros Hlim Happly HQ Hseq Hc.
  apply (size_walk_keeps P (fun ctrl => Q ctrl /\ short_string ctrl)); auto.
  - intros ctrl c0 [Hq _]. auto.
  - intros c0 ctrl _ [_ Hshort] Hlong. contradiction.
  - apply Forall_and; [apply _apply_splits_Forall; assumption|].
    apply _apply_splits_every_short.
Qed.

Lemma size_depth_keeps (P : FontContext -> Prop) (Q : FontControl -> Prop)
  (depth : nat) (self : FontContext) (seq : list FontControl)
  (spacing : option FontSpacing) (limits : option (Z * Z))
  (split_char : option SplitChar) (continued : bool) :
  (forall c, P c -> limits_set c) ->
  (forall ctrl c, Q ctrl -> P c -> P (FontControl_apply ctrl c)) ->
  holds_of_pieces Q ->
  Forall Q seq ->
  P (if negb continued then size_reset self limits else self) ->
  exists t c',
    size_depth (S (S depth)) self seq spacing limits split_char continued
    = Some (Ok (t, c')) /\ P c'.
Proof.
  intros Hlim Happly HQ Hseq Hstart.
  cbn [size_depth]. unfold copy.
  apply (size_walk_keeps P Q); auto.
  - intros c ctrl Hc Hq _. cbn [size_depth negb]. unfold copy.
    rewrite apply_spacing_None.
    apply (size_walk_split_bytes P Q); auto. apply HQ.
  - apply apply_spacing_Forall; assumption.
Qed.

Lemma size_reset_limits_set (self : FontContext) (limits : option (Z * Z)) :
  limits_set (size_reset self limits).
Proof. split; reflexivity. Qed.

(** X18. A call of [size] with [continued] false returns its tuple for every
    context, sequence, spacing, limits and split character: it does not
    raise and the nesting allowed is enough. *)
Theorem size_returns (self : FontContext) (seq : list FontControl)
  (spacing : option FontSpacing) (limits : option (Z * Z))
  (split_char : option SplitChar) :
  exists t self',
    size self seq spacing limits split_char false = Some (Ok (t, self')) /\
    limits_set self'.
Proof.
  unfold size.
  apply (size_depth_keeps limits_set (fun _ => True)); auto.
  - intros. apply FontControl_apply_limits_set. assumption.
  - repeat split.
  - apply Forall_forall. auto.
  - apply size_reset_limits_set.
Qed.

Lemma size_walk_short_any_recurse
  (r1 r2 : FontContext -> list FontControl -> option (result size_result))
  (split_char : option SplitChar) (ctrls : list FontControl) :
  Forall short_string ctrls ->
  forall self lc lsp (a b n : Z),
    size_walk r1 split_char ctrls self lc lsp a b n
    = size_walk r2 split_char ctrls self lc lsp a b n.
Proof.
  induction 1 as [|ctrl ctrls Hshort Hall IH]; intros self lc lsp a b n;
    [reflexivity|].
  cbn [size_walk].
  destruct ctrl; cbv beta iota zeta;
    try (change (len (@nil byte) >? 1) with false; cbv iota;
         destruct (beyond_limits _) as [[|]|]; try reflexivity;
         match goal with
         | |- context [if ?c then _ else _] => destruct c
         end; apply IH).
  cbn [short_string] in Hshort.
  replace (len string_ >? 1) with false by lia.
  destruct (beyond_limits _) as [[|]|]; try reflexivity.
  match goal with
  | |- context [if ?c then _ else _] => destruct c
  end; apply IH.
Qed.

Lemma size_walk_ext
  (r1 r2 : FontContext -> list FontControl -> option (result size_result))
  (split_char : option SplitChar) (ctrls : list FontControl) :
  (forall c ctrl, r1 c [ctrl] = r2 c [ctrl]) ->
  forall self lc lsp (a b n : Z),
    size_walk r1 split_char ctrls self lc lsp a b n
    = size_walk r2 split_char ctrls self lc lsp a b n.
Proof.
  intros Hext.
  induction ctrls as [|ctrl ctrls IH]; intros self lc lsp a b n;
    [reflexivity|].
  cbn [size_walk]. rewrite Hext.
  destruct ctrl; cbv beta iota zeta;
    destruct (beyond_limits _) as [[|]|]; try reflexivity;
    match goal with
    | |- context [if truthy ?c && ?d then _ else _] =>
        destruct (truthy c && d)
    end; apply IH.
Qed.

(** The recursion of [size] on the pieces of a string that crosses
    the limits never nests further: the pieces hold one byte or one word
    each and are sized without another recursive call, so whatever nesting
    is allowed beyond two levels, [size] gives what it gives with two. *)
Theorem size_depth_enough (depth : nat) (self : FontContext)
  (seq : list FontControl) (spacing : option FontSpacing)
  (limits : option (Z * Z)) (split_char : option SplitChar)
  (continued : bool) :
  size_depth (S (S depth)) self seq spacing limits split_char continued
  = size self seq spacing limits split_char continued.
Proof.
  unfold size. cbn [size_depth].
  apply size_walk_ext. intros c ctrl.
  rewrite !apply_spacing_None.
  apply size_walk_short_any_recurse. apply _apply_splits_every_short.
Qed.

(** *** Sizing twice *)

Lemma size_reset_style (self : FontContext) (limits : option (Z * Z)) :
  same_style self (size_reset self limits).
Proof. repeat split. Qed.

(** [size] starts from the same state on two contexts that agree on what it
    does not reset. *)
Lemma size_reset_same_style (c c' : FontContext) (limits : option (Z * Z)) :
  same_style c c' -> size_reset c' limits = size_reset c limits.
Proof.
  destruct c, c'. unfold same_style. cbn.
  intros (-> & -> & -> & -> & -> & -> & -> & -> & -> & ->). reflexivity.
Qed.

(** C8 (as amended). For every context and every sequence that holds no
    Matrix, Font, GCOL or RGB record (the records that change what [size]
    does not reset: the transform, the font and the colours), a call of
    [size] with [continued] false returns a tuple, and the same call made
    again on the context it leaves returns the same tuple and leaves the
    same context, bounds included. *)
Theorem size_twice_same (self : FontContext) (seq : list FontControl)
  (spacing : option FontSpacing) (limits : option (Z * Z))
  (split_char : option SplitChar) :
  Forall (fun ctrl => keeps_style ctrl = true) seq ->
  exists t self',
    size self seq spacing limits split_char false = Some (Ok (t, self')) /\
    size self' seq spacing limits split_char false = Some (Ok (t, self')).
Proof.
  intros Hseq.
  destruct (size_depth_keeps
              (fun c => limits_set c /\ same_style self c)
              (fun ctrl => keeps_style ctrl = true)
              0 self seq spacing limits split_char false)
    as (t & self' & Hsize & _ & Hstyle).
  - intros c [H _]. exact H.
  - intros ctrl c Hk [Hl Hs]. split.
    + apply FontControl_apply_limits_set. exact Hl.
    + eapply same_style_trans; [exact Hs|].
      apply FontControl_apply_style. exact Hk.
  - repeat split.
  - exact Hseq.
  - cbn [negb]. split; [apply size_reset_limits_set | apply size_reset_style].
  - exists t, self'. split; [exact Hsize|].
    unfold size in *. cbn [size_depth negb] in *.
    rewrite (size_reset_same_style self self' limits Hstyle). exact Hsize.
Qed.

End Sizing_properties.

(** [b'hello world'] sized twice on a new context. *)
Lemma size_twice_same_witness :
  let seq := [FontControlString 0 11
                [x68; x65; x6c; x6c; x6f; x20; x77; x6f; x72; x6c; x64]] in
  exists t self',
    size base_context seq None None None false = Some (Ok (t, self')) /\
    size self' seq None None None false = Some (Ok (t, self')).
Proof.
  cbv zeta.
  apply (size_twice_same base_context
           [FontControlString 0 11
              [x68; x65; x6c; x6c; x6f; x20; x77; x6f; x72; x6c; x64]]
           None None None).
  repeat constructor.
Defined.

(** C8, counterexample. [parse(b'a' + matrix + b'b')] where the matrix
    (control code 28) is the identity moved by (2^30, 0), sized twice on a
    new context. The first call sizes [b'a'] under the identity and returns
    (29, 2) with bounds (0, 0, 2^30, 0); it leaves the matrix as the
    transform, which [size] does not reset. The second call therefore sizes
    [b'a'] under the matrix, passes the limit 0x7FFFFFFF at [b'b'] and
    returns (28, 1) with bounds (2^30, 0, 2^30, 0). *)
Lemma size_twice_differs_after_matrix :
  exists p self1 self2,
    parse new_parser moved_bytes None = Some (Ok p) /\
    sequence p = moved_sequence /\
    size base_context moved_sequence None None None false
    = Some (Ok ((29, 2), self1)) /\
    size self1 moved_sequence None None None false
    = Some (Ok ((28, 1), self2)) /\
    bounds self1 = Some (0, 0, 1073741824, 0) /\
    bounds self2 = Some (1073741824, 0, 1073741824, 0).
Proof.
  exists {| sequence := moved_sequence; string := moved_bytes; index := 29;
            max_length := 1048576 |}.
  exists (set_bounds
            (set_xy
               (set_transform (set_limits base_context (Some 2147483647)
                                 (Some 2147483647)) moved_matrix)
               1073741824 0)
            (Some (0, 0, 1073741824, 0))).
  exists (set_bounds
            (set_xy
               (set_transform (set_limits base_context (Some 2147483647)
                                 (Some 2147483647)) moved_matrix)
               1073741824 0)
            (Some (1073741824, 0, 1073741824, 0))).
  repeat split.
Qed.

(** * Further properties *)

(** ** Colours *)

Section Colour_conversions.

Context {structs : Structs} {hooks : Hooks}.

Lemma land_bit (g k : Z) :
  0 <= k -> Z.land g (2 ^ k) = 0 \/ Z.land g (2 ^ k) = 2 ^ k.
Proof.
  intros Hk.
  destruct (Z.testbit g k) eqn:Hb; [right|left]; apply Z.bits_inj'; intros i Hi;
    rewrite Z.land_spec;
    destruct (Z.eq_dec i k) as [->|Hne];
    rewrite ?Z.pow2_bits_true, ?Z.bits_0, ?Hb by lia;
    try reflexivity;
    rewrite Z.pow2_bits_false by lia; apply andb_false_r.
Qed.

Lemma stub_gcol_round_trip_aux (g : Z) :
  stub_rgb_to_gcol (stub_gcol_to_rgb g) = Z.land g 7 /\
  (0 <= g <= 7 -> stub_rgb_to_gcol (stub_gcol_to_rgb g) = g).
Proof.
  assert (H : stub_rgb_to_gcol (stub_gcol_to_rgb g) = Z.land g 7).
  { replace 7 with (Z.lor (Z.lor 1 2) 4) by reflexivity.
    rewrite !Z.land_lor_distr_r.
    unfold stub_gcol_to_rgb, truthy.
    pose proof (land_bit g 0 ltac:(lia)) as H1. change (2 ^ 0) with 1 in H1.
    pose proof (land_bit g 1 ltac:(lia)) as H2. change (2 ^ 1) with 2 in H2.
    pose proof (land_bit g 2 ltac:(lia)) as H4. change (2 ^ 2) with 4 in H4.
    destruct H1 as [H1|H1], H2 as [H2|H2], H4 as [H4|H4];
      rewrite H1, H2, H4; reflexivity. }
  split; [exact H|]. intros Hg. rewrite H.
  assert (Hc : g = 0 \/ g = 1 \/ g = 2 \/ g = 3 \/ g = 4 \/ g = 5 \/ g = 6
               \/ g = 7) by lia.
  repeat (destruct Hc as [-> | Hc]; [reflexivity|]). subst. reflexivity.
Qed.

(** X1. The stub conversions of [FontContext] round-trip on the palette:
    [rgb_to_gcol(gcol_to_rgb(g))] is [g & 7] for every integer [g], hence
    [g] itself for the colours 0 to 7. *)
Theorem stub_gcol_round_trip (g : Z) :
  stub_rgb_to_gcol (stub_gcol_to_rgb g) = Z.land g 7 /\
  (0 <= g <= 7 -> stub_rgb_to_gcol (stub_gcol_to_rgb g) = g).
Proof. exact (stub_gcol_round_trip_aux g). Qed.

Lemma saturate_twice (v hi : Z) :
  saturate (saturate v 0 hi) 0 hi = saturate v 0 hi.
Proof. unfold saturate. lia. Qed.

Lemma sub_sub_same (a b : Z) : a - (a - b) = b.
Proof. lia. Qed.

(** Two contexts with the same attributes are the same context. *)
Lemma FontContext_ext (c c' : FontContext) :
  maxcol c = maxcol c' -> bg c = bg c' -> fgbase c = fgbase c' ->
  fgoffset c = fgoffset c' -> fg c = fg c' -> fgpal c = fgpal c' ->
  bgpal c = bgpal c' -> font_handle c = font_handle c' ->
  font c = font c' -> underline_pos c = underline_pos c' ->
  underline_thickness c = underline_thickness c' ->
  transform c = transform c' -> x c = x c' -> y c = y c' ->
  limitx c = limitx c' -> limity c = limity c' -> bounds c = bounds c' ->
  c = c'.
Proof. destruct c, c'. cbn. intros. subst. reflexivity. Qed.

(** X2. [_gcol_updated] is idempotent: running it again on the state it
    leaves changes nothing, whatever the state and the hooks. *)
Theorem _gcol_updated_idempotent (self : FontContext) :
  _gcol_updated (_gcol_updated self) = _gcol_updated self.
Proof.
  apply FontContext_ext; unfold _gcol_updated; cbn;
    rewrite ?saturate_twice, ?sub_sub_same, ?saturate_twice; reflexivity.
Qed.

(** X3. After a [select_colour] call that supplies at least one of bg, fg,
    bgpal, fgpal, the two colour models agree: [fgpal] and [bgpal] are
    [gcol_to_rgb] of [fg] and [bg], [fgoffset] is [fg - fgbase], and (for a
    maximum colour that is not negative) [fgbase] lies in [0, maxcol]. *)
Theorem select_colour_models_agree (self : FontContext)
  (bg_ fg_ fgoffset_ bgpal_ fgpal_ : option Z) :
  is_some bg_ || is_some fg_ || is_some bgpal_ || is_some fgpal_ = true ->
  let self' := select_colour self bg_ fg_ fgoffset_ bgpal_ fgpal_ in
  fgpal self' = gcol_to_rgb (fg self') /\
  bgpal self' = gcol_to_rgb (bg self') /\
  fgoffset self' = fg self' - fgbase self' /\
  (0 <= maxcol self -> 0 <= fgbase self' <= maxcol self).
Proof.
  intros Hsome self'. subst self'. unfold select_colour.
  destruct fg_, bg_, bgpal_, fgpal_; try discriminate Hsome;
    destruct fgoffset_; cbn; unfold saturate;
    (split; [reflexivity|]); (split; [reflexivity|]); (split; [reflexivity|]);
    lia.
Qed.

End Colour_conversions.

(** [select_colour(bg=0, fg=7)], the call the repository's tests make. *)
Lemma select_colour_models_agree_witness :
  let self' := select_colour base_context (Some 0) (Some 7) None None None in
  fgpal self' = gcol_to_rgb (fg self') /\
  bgpal self' = gcol_to_rgb (bg self') /\
  fgoffset self' = fg self' - fgbase self' /\
  (0 <= maxcol base_context -> 0 <= fgbase self' <= maxcol base_context).
Proof.
  exact (select_colour_models_agree base_context (Some 0) (Some 7) None None
           None eq_refl).
Defined.

(** X4. With the stub conversions and maxcol 7, selecting the RGB values of
    two palette colours selects those colours: for [b] and [f] in 0..7,
    [select_colour(bgpal=gcol_to_rgb(b), fgpal=gcol_to_rgb(f))] ends with
    [bg = b], [fg = f] and the RGB values as supplied. *)
Theorem select_colour_stub_rgb_of_palette (self : @FontContext spec_structs)
  (b f : Z) :
  maxcol self = 7 -> 0 <= b <= 7 -> 0 <= f <= 7 ->
  let self' := select_colour (hooks := base_hooks) self None None None
                 (Some (stub_gcol_to_rgb b)) (Some (stub_gcol_to_rgb f)) in
  bg self' = b /\ fg self' = f /\
  bgpal self' = stub_gcol_to_rgb b /\ fgpal self' = stub_gcol_to_rgb f.
Proof.
  intros Hmax Hb Hf self'. subst self'.
  unfold select_colour, _rgb_updated, _gcol_updated.
  cbn [is_some orb fst snd maxcol bg fg fgbase fgoffset fgpal bgpal
       set_bg set_fg set_fgbase set_fgoffset set_fgpal set_bgpal
       gcol_to_rgb rgb_to_gcol base_hooks stub_hooks].
  rewrite Hmax.
  rewrite (proj2 (stub_gcol_round_trip_aux b) Hb).
  rewrite (proj2 (stub_gcol_round_trip_aux f) Hf).
  rewrite !saturate_id by lia. repeat split.
Qed.

(** The colours 0 and 7 on a new context. *)
Lemma select_colour_stub_rgb_of_palette_witness :
  let self' := select_colour base_context None None None
                 (Some (stub_gcol_to_rgb 0)) (Some (stub_gcol_to_rgb 7)) in
  bg self' = 0 /\ fg self' = 7 /\
  bgpal self' = stub_gcol_to_rgb 0 /\ fgpal self' = stub_gcol_to_rgb 7.
Proof.
  apply (select_colour_stub_rgb_of_palette base_context 0 7);
    [reflexivity | lia | lia].
Defined.

(** The colour 5 comes back as 5. *)
Lemma stub_gcol_round_trip_witness :
  0 <= 5 <= 7 /\ stub_rgb_to_gcol (stub_gcol_to_rgb 5) = 5.
Proof.
  split; [lia | apply (proj2 (stub_gcol_round_trip 5)); lia].
Defined.

(** ** The records of a parse *)

Section Parser_records.

Context {structs : Structs}.

Implicit Types p : FontControlParser.

Ltac next_byte :=
  match goal with
  | |- context [read_byte ?q] =>
      let b := fresh "b" in
      let q' := fresh "q" in
      let E := fresh "E" in
      let H := fresh "H" in
      destruct (read_byte q) as [b q'] eqn:E;
      pose proof (read_byte_snd q) as H; rewrite E in H; cbn [snd] in H;
      subst q'; clear E
  end.

Ltac record_added :=
  cbn [index set_index string max_length append set_sequence sequence];
  left; eexists; split; [|split; [reflexivity|split; [reflexivity|]]];
  [|cbn [index_end FontControlMove_init FontControlGCOL_init
         FontControlRGB_init fst snd]; lia].

(** One turn, with the span of what it adds: a record that is not a string
    spans from the index before the turn to the index after it; a character
    is the byte at the index, is printable, and moves the index by one. A
    turn that ends the loop leaves the index where it was (terminator) or
    one further (unknown control). *)
Lemma parse_turn_record p :
  0 <= index p ->
  match parse_turn p with
  | Continue p' =>
      (exists fc, isinstance_String fc = false /\
                  sequence p' = sequence p ++ [fc] /\
                  index_start fc = index p /\
                  index_end fc = index p' /\ index p < index p') \/
      (index p < len (string p) /\
       32 <= byte_val (byte_at (string p) (index p)) /\
       p' = accumulate (set_index p (index p + 1)) (index p)
              (byte_at (string p) (index p)))
  | Break p' =>
      sequence p' = sequence p /\
      (index p' = index p \/ index p' = index p + 1)
  | Raised _ => True
  | Unfinished => True
  end.
Proof.
  intros H0. unfold parse_turn.
  destruct (read_byte p) as [b q] eqn:E.
  pose proof (read_byte_snd p) as Hq. rewrite E in Hq. cbn [snd] in Hq.
  subst q.
  destruct ((byte_val b =? 0) || (byte_val b =? 10) || (byte_val b =? 13))
    eqn:Hterm.
  { unfold step_back. cbn [index set_index].
    replace (truthy (index p + 1)) with true
      by (unfold truthy; symmetry; apply negb_true_iff; lia).
    cbn [index set_index sequence]. split; [reflexivity|left; lia]. }
  assert (Hnz : byte_val (fst (read_byte p)) <> 0) by (rewrite E; cbn; lia).
  apply read_byte_nonzero in Hnz. destruct Hnz as (Hlen & Hmax & Hb).
  rewrite E in Hb. cbn [fst] in Hb. clear E Hterm.
  destruct ((byte_val b =? 9) || (byte_val b =? 11)).
  { repeat next_byte. destruct (byte_val b =? 9); record_added; reflexivity. }
  destruct (byte_val b =? 17).
  { repeat next_byte. destruct (truthy _); record_added; reflexivity. }
  destruct (byte_val b =? 18).
  { repeat next_byte. record_added. reflexivity. }
  destruct (byte_val b =? 19).
  { repeat next_byte. record_added. reflexivity. }
  destruct (byte_val b =? 21).
  { destruct (read_comment _ _ _) as [[q c]|] eqn:Hc; [|exact I].
    apply read_comment_frame in Hc.
    destruct Hc as [(S1 & S2 & S3) Hi].
    cbn [index set_index string max_length sequence] in *.
    cbn [append set_sequence string max_length index sequence].
    left. eexists. split; [|split; [rewrite S1; reflexivity|]].
    - reflexivity.
    - cbn [index_start index_end]. repeat split; lia. }
  destruct (byte_val b =? 25).
  { repeat next_byte. record_added. reflexivity. }
  destruct (byte_val b =? 26).
  { repeat next_byte. record_added. reflexivity. }
  destruct ((byte_val b =? 27) || (byte_val b =? 28)).
  { destruct (read_matrix _ _) as [[m q]|e] eqn:Hm; [|exact I].
    apply read_matrix_frame in Hm. destruct Hm as [(S1 & S2 & S3) Hi].
    pose proof (align_ge (set_index p (index p + 1))) as Ha.
    cbn [index set_index string max_length sequence align] in *.
    cbn [append set_sequence string max_length index sequence].
    left. eexists. split; [|split; [rewrite S1; reflexivity|]].
    - reflexivity.
    - cbn [index_start index_end]. repeat split; lia. }
  destruct (byte_val b <? 32) eqn:Hprint.
  { cbn [sequence set_index index]. split; [reflexivity|right; reflexivity]. }
  right. subst b. repeat split; lia.
Qed.

(** *** Records follow one another and strings come from the buffer *)

Lemma firstn_snoc {A} (l : list A) (n : nat) (d : A) :
  (n < length l)%nat -> firstn (S n) l = firstn n l ++ [nth n l d].
Proof.
  revert n. induction l as [|a l IH]; intros n Hn; cbn [length] in Hn;
    [lia|].
  destruct n as [|n]; [reflexivity|].
  cbn [firstn nth app]. f_equal. apply IH. lia.
Qed.

Lemma slice_empty (buffer : bytes) (i : Z) : slice buffer i i = [].
Proof. unfold slice. rewrite Z.sub_diag. reflexivity. Qed.

Lemma slice_snoc (buffer : bytes) (i j : Z) :
  0 <= i <= j -> j < len buffer ->
  slice buffer i (j + 1) = slice buffer i j ++ [byte_at buffer j].
Proof.
  intros Hij Hj. unfold slice, byte_at, len in *.
  replace (Z.to_nat (j + 1 - i)) with (S (Z.to_nat (j - i))) by lia.
  rewrite (firstn_snoc _ _ x00) by (rewrite length_skipn; lia).
  rewrite nth_skipn. do 3 f_equal. lia.
Qed.

Lemma tiles_le (l : list FontControl) :
  forall a b, tiles a l b -> a <= b.
Proof.
  induction l as [|fc l IH]; cbn [tiles]; intros a b H; [lia|].
  destruct H as (_ & Hlt & Hl). apply IH in Hl. lia.
Qed.

Lemma tiles_app (l l' : list FontControl) :
  forall a b c, tiles a l b -> tiles b l' c -> tiles a (l ++ l') c.
Proof.
  induction l as [|fc l IH]; cbn [tiles app]; intros a b c Hl Hl'.
  - subst. exact Hl'.
  - destruct Hl as (H1 & H2 & H3). eauto.
Qed.

Lemma tiles_snoc_inv (l : list FontControl) (fc : FontControl) :
  forall a c,
    tiles a (l ++ [fc]) c ->
    exists b, tiles a l b /\ index_start fc = b /\ b < index_end fc /\
              index_end fc = c.
Proof.
  induction l as [|x l IH]; cbn [tiles app]; intros a c H.
  - destruct H as (H1 & H2 & H3). exists a. repeat split; auto.
  - destruct H as (H1 & H2 & H3). apply IH in H3.
    destruct H3 as (b & Hb & Hrest). exists b. repeat split; tauto.
Qed.

Lemma accumulate_tiled p :
  tiled_so_far p ->
  index p < len (string p) ->
  32 <= byte_val (byte_at (string p) (index p)) ->
  tiled_so_far
    (accumulate (set_index p (index p + 1)) (index p)
       (byte_at (string p) (index p))).
Proof.
  intros Hinv Hlen Hprint. destruct Hinv as (H0 & Htiles & Hfrom).
  unfold accumulate. cbn [sequence set_index index].
  assert (Hrev : sequence p = rev (rev (sequence p)))
    by (symmetry; apply rev_involutive).
  assert (Hnew : tiled_so_far
            (append (set_index p (index p + 1))
               (FontControlString (index p) (index p + 1)
                  [byte_at (string p) (index p)]))).
  { unfold tiled_so_far.
    cbn [append set_sequence set_index sequence index string].
    split; [lia|]. split.
    - eapply tiles_app; [exact Htiles|]. cbn. repeat split; lia.
    - apply Forall_app. split; [exact Hfrom|].
      constructor; [|constructor]. cbn [string_from]. split.
      + rewrite slice_snoc, slice_empty by lia. reflexivity.
      + constructor; [exact Hprint | constructor]. }
  destruct (rev (sequence p)) as [|last before] eqn:Er; [exact Hnew|].
  destruct last; try exact Hnew.
  cbn [rev] in Hrev. rewrite Hrev in Htiles, Hfrom.
  apply tiles_snoc_inv in Htiles.
  destruct Htiles as (b & Hb & Hs & Hlt & He).
  cbn [index_start index_end] in Hs, Hlt, He.
  apply Forall_app in Hfrom. destruct Hfrom as [Hbefore Hlast].
  apply Forall_inv in Hlast. cbn [string_from] in Hlast.
  destruct Hlast as [Hslice Hall]. rewrite He in Hslice.
  pose proof (tiles_le _ _ _ Hb) as Hb0.
  unfold tiled_so_far.
  cbn [set_sequence set_index sequence index string].
  split; [lia|]. split.
  - eapply tiles_app; [exact Hb|]. cbn. repeat split; lia.
  - apply Forall_app. split; [exact Hbefore|].
    constructor; [|constructor]. cbn [string_from]. split.
    + rewrite slice_snoc by lia. rewrite <- Hslice. reflexivity.
    + apply Forall_app. split; [exact Hall|].
      constructor; [exact Hprint | constructor].
Qed.

Lemma parse_turn_break_string p :
  match parse_turn p with
  | Break p' => string p' = string p
  | _ => True
  end.
Proof.
  unfold parse_turn.
  destruct (read_byte p) as [b q] eqn:E.
  pose proof (read_byte_snd p) as Hq. rewrite E in Hq. cbn [snd] in Hq.
  subst q. clear E.
  destruct (_ || _ || _).
  { unfold step_back. destruct (truthy _); reflexivity. }
  destruct (_ || _). { repeat next_byte. exact I. }
  destruct (byte_val b =? 17). { repeat next_byte. exact I. }
  destruct (byte_val b =? 18). { repeat next_byte. exact I. }
  destruct (byte_val b =? 19). { repeat next_byte. exact I. }
  destruct (byte_val b =? 21).
  { destruct (read_comment _ _ _) as [[? ?]|]; exact I. }
  destruct (byte_val b =? 25). { repeat next_byte. exact I. }
  destruct (byte_val b =? 26). { repeat next_byte. exact I. }
  destruct (_ || _). { destruct (read_matrix _ _) as [[? ?]|]; exact I. }
  destruct (byte_val b <? 32); [reflexivity | exact I].
Qed.

Lemma parse_turn_tiled p :
  tiled_so_far p ->
  match parse_turn p with
  | Continue p' => tiled_so_far p'
  | Break p' =>
      string p' = string p /\
      tiles 0 (sequence p') (index p) /\
      Forall (string_from (string p)) (sequence p') /\
      (index p' = index p \/ index p' = index p + 1)
  | _ => True
  end.
Proof.
  intros Hinv. pose proof Hinv as (H0 & Htiles & Hfrom).
  pose proof (parse_turn_record p H0) as Hr.
  pose proof (parse_turn_cases p H0) as Hc.
  pose proof (parse_turn_break_string p) as Hb.
  destruct (parse_turn p) as [p'|p'|e|]; try exact I.
  - destruct Hc as (Hs & _ & _ & _ & _).
    destruct Hr as [(fc & Hfc & Hseq & Hst & Hen & Hlt) | (Hlen & Hp & ->)].
    + unfold tiled_so_far. rewrite Hseq, Hs. split; [lia|]. split.
      * eapply tiles_app; [exact Htiles|]. cbn [tiles]. repeat split; lia.
      * apply Forall_app. split; [exact Hfrom|].
        constructor; [|constructor]. destruct fc; try exact I; discriminate.
    + apply accumulate_tiled; assumption.
  - destruct Hr as [Hseq Hi]. rewrite Hseq. repeat split; assumption.
Qed.

Lemma parse_loop_tiled (fuel : nat) :
  forall p p',
    tiled_so_far p ->
    parse_loop fuel p = Some (Ok p') ->
    string p' = string p /\
    exists e,
      tiles 0 (sequence p') e /\ e <= index p' <= e + 1 /\
      Forall (string_from (string p)) (sequence p').
Proof.
  induction fuel as [|fuel IH]; intros p p' Hinv; [discriminate|].
  cbn [parse_loop].
  pose proof (parse_turn_tiled p Hinv) as Ht.
  pose proof (parse_turn_cases p (proj1 Hinv)) as Hc.
  destruct (parse_turn p) as [q|q|e|]; try discriminate.
  - intros Hloop. destruct Hc as (Hs & _).
    destruct (IH q p' Ht Hloop) as (Hs' & e & H1 & H2 & H3).
    rewrite Hs in *. split; [exact Hs'|]. exists e. auto.
  - intros [= <-]. destruct Ht as (Hs & H1 & H2 & H3).
    split; [exact Hs|]. exists (index p). repeat split; try assumption; lia.
Qed.

Lemma new_sequence_tiled p (string_ : bytes) (m : Z) :
  sequence p = [] ->
  tiled_so_far {| sequence := sequence p; string := string_; index := 0;
                  max_length := m |}.
Proof.
  intros Hseq. unfold tiled_so_far. cbn [sequence index string].
  rewrite Hseq. repeat split; [lia | constructor].
Qed.

Lemma simple_string_bound (buffer : bytes) (l : list FontControl) :
  forall a b,
    0 <= a -> tiles a l b -> Forall (string_from buffer) l ->
    len (simple_string_of l) <= b - a.
Proof.
  induction l as [|fc l IH]; cbn [tiles simple_string_of flat_map];
    intros a b Ha Ht Hf.
  - change (len (@nil byte)) with 0. lia.
  - destruct Ht as (Hs & Hlt & Ht).
    inversion Hf as [|? ? Hfc Hl]; subst.
    specialize (IH (index_end fc) b ltac:(lia) Ht Hl).
    fold (simple_string_of l). rewrite len_app.
    destruct fc; cbn [index_start index_end string_from] in *;
      try (change (len (@nil byte)) with 0; lia).
    destruct Hfc as [-> _]. rewrite slice_length by lia. lia.
Qed.

(** X5. [parse] comes to an end for every parser, string and
    [max_length]: it returns or it raises, and the turns allowed by the
    embedding (one more than the string is long) are never used up. *)
Theorem parse_returns_or_raises p (string_ : bytes)
  (max_length_ : option Z) :
  exists r, parse p string_ max_length_ = Some r.
Proof. exact (parse_total p string_ max_length_). Qed.

(** X7. The records of a parse that starts with an empty sequence follow
    one another: the first starts at index 0, each starts where the one
    before ends, none is empty, and the parser's index ends on the end of
    the last record or one byte further. *)
Theorem parse_records_tile p (string_ : bytes) (max_length_ : option Z) :
  sequence p = [] ->
  exists r, parse p string_ max_length_ = Some r /\
    forall p', r = Ok p' ->
      exists e, tiles 0 (sequence p') e /\ e <= index p' <= e + 1.
Proof.
  intros Hseq. destruct (parse_total p string_ max_length_) as [r Hr].
  exists r. split; [exact Hr|]. intros p' ->. unfold parse in Hr.
  apply parse_loop_tiled in Hr; [|apply new_sequence_tiled; exact Hseq].
  destruct Hr as (_ & e & H1 & H2 & _). eauto.
Qed.

(** X8. Every String record of a parse that starts with an empty sequence
    holds exactly the bytes of the parsed string between its [index_start]
    and its [index_end], and all of them are printable (32 or more). *)
Theorem parse_strings_from_buffer p (string_ : bytes)
  (max_length_ : option Z) :
  sequence p = [] ->
  exists r, parse p string_ max_length_ = Some r /\
    forall p', r = Ok p' -> Forall (string_from string_) (sequence p').
Proof.
  intros Hseq. destruct (parse_total p string_ max_length_) as [r Hr].
  exists r. split; [exact Hr|]. intros p' ->. unfold parse in Hr.
  apply parse_loop_tiled in Hr; [|apply new_sequence_tiled; exact Hseq].
  destruct Hr as (_ & e & _ & _ & H). exact H.
Qed.

(** X10. After a parse that starts with an empty sequence,
    [nskipped_controls()] is not negative: the string content is never
    longer than the index reached. *)
Theorem nskipped_controls_not_negative p (string_ : bytes)
  (max_length_ : option Z) :
  sequence p = [] ->
  exists r, parse p string_ max_length_ = Some r /\
    forall p', r = Ok p' ->
      0 <= nskipped_controls p' /\ len (simple_string p') <= index p'.
Proof.
  intros Hseq. destruct (parse_total p string_ max_length_) as [r Hr].
  exists r. split; [exact Hr|]. intros p' ->. unfold parse in Hr.
  apply parse_loop_tiled in Hr; [|apply new_sequence_tiled; exact Hseq].
  destruct Hr as (_ & e & H1 & H2 & H3).
  pose proof (simple_string_bound _ _ 0 e ltac:(lia) H1 H3) as Hb.
  unfold nskipped_controls, simple_string. lia.
Qed.

(** *** A run of printable bytes *)

Lemma parse_turn_printable p :
  0 <= index p -> index p < len (string p) -> index p < max_length p ->
  32 <= byte_val (byte_at (string p) (index p)) ->
  parse_turn p
  = Continue (accumulate (set_index p (index p + 1)) (index p)
                (byte_at (string p) (index p))).
Proof.
  intros H0 Hlen Hmax Hp. unfold parse_turn.
  rewrite read_byte_in by assumption.
  set (b := byte_at (string p) (index p)) in *.
  replace (byte_val b =? 0) with false by lia.
  replace (byte_val b =? 10) with false by lia.
  replace (byte_val b =? 13) with false by lia.
  replace (byte_val b =? 9) with false by lia.
  replace (byte_val b =? 11) with false by lia.
  replace (byte_val b =? 17) with false by lia.
  replace (byte_val b =? 18) with false by lia.
  replace (byte_val b =? 19) with false by lia.
  replace (byte_val b =? 21) with false by lia.
  replace (byte_val b =? 25) with false by lia.
  replace (byte_val b =? 26) with false by lia.
  replace (byte_val b =? 27) with false by lia.
  replace (byte_val b =? 28) with false by lia.
  replace (byte_val b <? 32) with false by lia.
  reflexivity.
Qed.

(** A turn on a terminator, or at the end of the string or of
    [max_length], ends the loop and leaves the index where it was. *)
Lemma parse_turn_stop p :
  0 <= index p ->
  len (string p) <= index p \/ max_length p <= index p \/
  is_terminator (byte_at (string p) (index p)) ->
  parse_turn p = Break (set_index p (index p)).
Proof.
  intros H0 Hstop. unfold parse_turn.
  assert (Hb : exists b, read_byte p = (b, set_index p (index p + 1)) /\
                         is_terminator b).
  { destruct (Z.le_gt_cases (len (string p)) (index p)) as [H|H].
    - exists x00. split; [apply read_byte_end; auto | left; reflexivity].
    - destruct (Z.le_gt_cases (max_length p) (index p)) as [H'|H'].
      + exists x00. split; [apply read_byte_end; auto | left; reflexivity].
      + exists (byte_at (string p) (index p)).
        split; [apply read_byte_in; lia|].
        destruct Hstop as [?|[?|?]]; [lia | lia | assumption]. }
  destruct Hb as (b & -> & Hterm).
  replace ((byte_val b =? 0) || (byte_val b =? 10) || (byte_val b =? 13))
    with true
    by (unfold is_terminator in Hterm; symmetry;
        rewrite !orb_true_iff, !Z.eqb_eq; tauto).
  unfold step_back. cbn [index set_index].
  replace (truthy (index p + 1)) with true
    by (unfold truthy; symmetry; apply negb_true_iff; lia).
  unfold set_index. cbn [sequence string index max_length].
  replace (index p + 1 - 1) with (index p) by lia. reflexivity.
Qed.

Lemma parse_loop_run (run : bytes) :
  forall (fuel : nat) p (pre rest : bytes) (before : list FontControl)
         (i : Z) (s0 : bytes),
    Forall (fun b => 32 <= byte_val b) run ->
    string p = pre ++ run ++ rest ->
    index p = len pre ->
    sequence p = before ++ [FontControlString i (len pre) s0] ->
    len pre + len run <= max_length p ->
    (rest = [] \/ max_length p = len pre + len run \/
     exists t rest', rest = t :: rest' /\ is_terminator t) ->
    (length run < fuel)%nat ->
    exists p',
      parse_loop fuel p = Some (Ok p') /\
      sequence p'
      = before ++ [FontControlString i (len pre + len run) (s0 ++ run)] /\
      index p' = len pre + len run.
Proof.
  induction run as [|b run IH];
    intros fuel p pre rest before i s0 Hall Hs Hi Hseq Hmax Hstop Hfuel;
    (destruct fuel as [|fuel]; [cbn in Hfuel; lia|]);
    pose proof (len_nonneg pre) as Hpre; cbn [parse_loop].
  - change (len (@nil byte)) with 0 in *. cbn [app] in Hs.
    rewrite parse_turn_stop.
    + eexists. split; [reflexivity|].
      cbn [sequence index set_index]. rewrite Hseq, Hi, Z.add_0_r, app_nil_r.
      split; reflexivity.
    + lia.
    + rewrite Hs, Hi.
      destruct Hstop as [-> | [Hm | (t & rest' & -> & Ht)]].
      * left. rewrite app_nil_r. lia.
      * right; left. lia.
      * right; right. rewrite byte_at_app. exact Ht.
  - inversion Hall as [|? ? Hb Hall']; subst.
    rewrite len_cons in *. pose proof (len_nonneg run) as Hrun.
    assert (Hat : byte_at (string p) (index p) = b)
      by (rewrite Hs, Hi; cbn [app]; apply byte_at_app).
    rewrite parse_turn_printable.
    2: lia.
    2: { rewrite Hs, Hi. cbn [app]. rewrite len_app, len_cons.
         pose proof (len_nonneg (run ++ rest)). lia. }
    2: lia.
    2: rewrite Hat; exact Hb.
    rewrite Hat. unfold accumulate. cbn [sequence set_index].
    rewrite Hseq, rev_unit, rev_involutive.
    destruct (IH fuel
                (set_sequence (set_index p (index p + 1))
                   (before ++ [FontControlString i (index p + 1) (s0 ++ [b])]))
                (pre ++ [b]) rest before i (s0 ++ [b]))
      as (p' & Hloop & Hseq' & Hi'); try assumption.
    + cbn [string set_sequence set_index]. rewrite Hs, <- app_assoc.
      reflexivity.
    + cbn [index set_sequence set_index]. rewrite len_app, len_cons, Hi.
      change (len (@nil byte)) with 0. lia.
    + cbn [sequence set_sequence]. rewrite len_app, len_cons, Hi.
      change (len (@nil byte)) with 0. rewrite Z.add_0_r. reflexivity.
    + cbn [max_length set_sequence set_index]. rewrite len_app, len_cons.
      change (len (@nil byte)) with 0. lia.
    + cbn [max_length set_sequence set_index]. rewrite len_app, len_cons.
      change (len (@nil byte)) with 0.
      destruct Hstop as [?|[?|?]]; [left; assumption | right; left; lia
                                   | right; right; assumption].
    + cbn [length] in Hfuel. lia.
    + exists p'. split; [exact Hloop|].
      rewrite Hseq', Hi', len_app, len_cons, <- app_assoc.
      change (len (@nil byte)) with 0. cbn [app].
      replace (len pre + (1 + 0) + len run) with (len pre + (1 + len run))
        by lia.
      split; [reflexivity | lia].
Qed.

Lemma accumulate_new p (start : Z) (b : byte) :
  open_string (sequence p) = None ->
  accumulate p start b
  = append p (FontControlString start (index p) [b]).
Proof.
  unfold open_string, accumulate.
  destruct (rev (sequence p)) as [|[] ?]; try reflexivity. discriminate.
Qed.

(** X9. A run of printable bytes that ends at the end of the string, at
    [max_length] or at a terminator (0, 10 or 13) is parsed into one String
    record that spans the run, added to a sequence that does not end in a
    string, and the index is left at the end of the run, on the terminator
    if there is one. *)
Theorem parse_printable_run p (run rest : bytes)
  (max_length_ : option Z) :
  open_string (sequence p) = None ->
  run <> [] ->
  Forall (fun b => 32 <= byte_val b) run ->
  len run <= parse_max_length max_length_ ->
  (rest = [] \/ parse_max_length max_length_ = len run \/
   exists t rest', rest = t :: rest' /\ is_terminator t) ->
  exists p',
    parse p (run ++ rest) max_length_ = Some (Ok p') /\
    sequence p' = sequence p ++ [FontControlString 0 (len run) run] /\
    index p' = len run.
Proof.
  intros Hopen Hne Hall Hmax Hstop.
  destruct run as [|b run]; [contradiction|].
  inversion Hall as [|? ? Hb Hall']; subst.
  rewrite len_cons in *. pose proof (len_nonneg run) as Hrun.
  unfold parse. cbn [app length parse_loop].
  set (M := parse_max_length max_length_) in *.
  set (p0 := {| sequence := sequence p; string := b :: run ++ rest;
                index := 0; max_length := M |}).
  assert (Hat : byte_at (string p0) (index p0) = b) by reflexivity.
  rewrite parse_turn_printable;
    [ | subst p0; cbn [index]; lia
      | subst p0; cbn [index string]; rewrite len_cons;
        pose proof (len_nonneg (run ++ rest)); lia
      | subst p0; cbn [index max_length]; lia
      | rewrite Hat; exact Hb ].
  rewrite Hat, accumulate_new by exact Hopen.
  destruct (parse_loop_run run (S (length (run ++ rest)))
              (append (set_index p0 (index p0 + 1))
                 (FontControlString (index p0)
                    (index (set_index p0 (index p0 + 1))) [b]))
              [b] rest (sequence p) 0 [b])
    as (p' & Hloop & Hseq & Hi); try assumption;
    try reflexivity;
    cbn [max_length append set_sequence set_index p0];
    change (len [b]) with 1; try lia.
  - rewrite length_app. lia.
  - exists p'. split; [exact Hloop|]. rewrite Hseq, Hi.
    change (len [b]) with 1. cbn [app]. split; reflexivity.
Qed.

(** *** Words, alignment and the fields of records *)

(** X11. [align] moves the index to the next multiple of 4: the new index
    is a multiple of 4, it is not below the old one and less than 4 above
    it, and an index that is a multiple of 4 stays. *)
Theorem align_next_multiple p :
  index (align p) mod 4 = 0 /\
  index p <= index (align p) < index p + 4 /\
  (index p mod 4 = 0 -> index (align p) = index p).
Proof.
  unfold align. cbn [index set_index].
  rewrite <- Z.ldiff_land.
  replace 3 with (Z.ones 2) at 2 4 6 8 by reflexivity.
  rewrite Z.ldiff_ones_r by lia.
  rewrite Z.shiftl_mul_pow2, Z.shiftr_div_pow2 by lia.
  change (2 ^ 2) with 4. change (Z.ones 2) with 3.
  pose proof (Z.div_mod (index p + 3) 4 ltac:(lia)).
  pose proof (Z.mod_pos_bound (index p + 3) 4 ltac:(lia)).
  pose proof (Z.div_mod (index p) 4 ltac:(lia)).
  pose proof (Z.mod_pos_bound (index p) 4 ltac:(lia)).
  split; [apply Z.mod_mul; lia|]. split; [lia|].
  intros Hm. rewrite Hm in *.
  assert ((index p + 3) / 4 = index p / 4); [|lia].
  replace (index p + 3) with (index p / 4 * 4 + 3) by lia.
  rewrite Z.div_add_l by lia. change (3 / 4) with 0. lia.
Qed.

Lemma slice_four (buffer : bytes) (i : Z) :
  0 <= i -> i + 4 <= len buffer ->
  slice buffer i (i + 4)
  = [byte_at buffer i; byte_at buffer (i + 1); byte_at buffer (i + 2);
     byte_at buffer (i + 3)].
Proof.
  intros Hi Hlen.
  replace (i + 4) with (i + 1 + 1 + 1 + 1) by lia.
  rewrite !slice_snoc, slice_empty by lia.
  cbn [app].
  replace (i + 1 + 1 + 1) with (i + 3) by lia.
  replace (i + 1 + 1) with (i + 2) by lia. reflexivity.
Qed.

(** X12. With four bytes left in the string and at least three before
    [max_length], [read_word] returns the little-endian value [u] of the
    four bytes at the index, [0 <= u < 2^32], and moves the index by 4;
    [read_signedword] returns the same value read as two's complement: [u]
    below [2^31], [u - 2^32] from there on. *)
Theorem read_word_value p :
  0 <= index p ->
  index p + 4 <= len (string p) ->
  index p + 3 <= max_length p ->
  let i := index p in
  let u := byte_val (byte_at (string p) i)
           + 256 * byte_val (byte_at (string p) (i + 1))
           + 65536 * byte_val (byte_at (string p) (i + 2))
           + 16777216 * byte_val (byte_at (string p) (i + 3)) in
  read_word p false = Ok (Some u, set_index p (i + 4)) /\
  read_signedword p
  = Ok (Some (if u <? 2 ^ 31 then u else u - 2 ^ 32), set_index p (i + 4)) /\
  0 <= u < 2 ^ 32.
Proof.
  intros H0 Hlen Hmax i u.
  assert (Hu : 0 <= u < 2 ^ 32).
  { subst u.
    pose proof (byte_val_range (byte_at (string p) i)).
    pose proof (byte_val_range (byte_at (string p) (i + 1))).
    pose proof (byte_val_range (byte_at (string p) (i + 2))).
    pose proof (byte_val_range (byte_at (string p) (i + 3))). lia. }
  unfold read_signedword, read_word.
  replace (index p + 3 >? len (string p)) with false by lia.
  replace (index p + 3 >? max_length p) with false by lia.
  cbn [orb]. rewrite slice_four by lia. cbn [unpack_word bind andb].
  fold i. fold u. split; [reflexivity|]. split; [|exact Hu].
  destruct (u >=? 2 ^ 31) eqn:E1, (u <? 2 ^ 31) eqn:E2; try reflexivity; lia.
Qed.

Ltac read_on :=
  rewrite read_byte_in by (cbn [index string max_length set_index]; lia);
  cbn [index string max_length set_index sequence].

Ltac norm_plus :=
  repeat match goal with
  | |- context [?i + 1 + 1 + 1 + 1 + 1 + 1 + 1 + 1] =>
      replace (i + 1 + 1 + 1 + 1 + 1 + 1 + 1 + 1) with (i + 8) by lia
  | |- context [?i + 1 + 1 + 1 + 1 + 1 + 1 + 1] =>
      replace (i + 1 + 1 + 1 + 1 + 1 + 1 + 1) with (i + 7) by lia
  | |- context [?i + 1 + 1 + 1 + 1 + 1 + 1] =>
      replace (i + 1 + 1 + 1 + 1 + 1 + 1) with (i + 6) by lia
  | |- context [?i + 1 + 1 + 1 + 1 + 1] =>
      replace (i + 1 + 1 + 1 + 1 + 1) with (i + 5) by lia
  | |- context [?i + 1 + 1 + 1 + 1] =>
      replace (i + 1 + 1 + 1 + 1) with (i + 4) by lia
  | |- context [?i + 1 + 1 + 1] => replace (i + 1 + 1 + 1) with (i + 3) by lia
  | |- context [?i + 1 + 1] => replace (i + 1 + 1) with (i + 2) by lia
  end.

(** X13. An underline (control code 25) read from the string: the position
    is the first payload byte read as a signed byte, between -128 and 127
    and equal to the byte modulo 256; the thickness is the second byte as
    it is. The record spans three bytes. *)
Theorem parse_turn_underline_signed p :
  0 <= index p -> index p + 2 < len (string p) ->
  index p + 2 < max_length p ->
  byte_at (string p) (index p) = x19 ->
  let i := index p in
  let b := byte_val (byte_at (string p) (i + 1)) in
  let pos := if b >? 127 then b - 256 else b in
  parse_turn p
  = Continue (append (set_index p (i + 3))
                (FontControlUnderline i (i + 3) pos
                   (byte_val (byte_at (string p) (i + 2))))) /\
  -128 <= pos <= 127 /\ pos mod 256 = b.
Proof.
  intros H0 Hlen Hmax Hop i b pos. split.
  - unfold parse_turn. read_on. rewrite Hop.
    change (byte_val x19) with 25. cbn [Z.eqb orb Pos.eqb].
    do 2 read_on. norm_plus. reflexivity.
  - pose proof (byte_val_range (byte_at (string p) (i + 1))) as Hb.
    fold b in Hb. subst pos. destruct (b >? 127) eqn:E.
    + split; [lia|].
      replace (b - 256) with (b + (-1) * 256) by lia.
      rewrite Z.mod_add by lia. apply Z.mod_small. lia.
    + split; [lia|]. apply Z.mod_small. lia.
Qed.

Lemma rgb_value (r g b : byte) :
  Z.lor (Z.lor (Z.lor (Z.shiftl (byte_val r) 8) (Z.shiftl (byte_val g) 16))
               (Z.shiftl (byte_val b) 24)) 0x10
  = 16 + 256 * (byte_val r + 256 * byte_val g + 65536 * byte_val b).
Proof.
  pose proof (byte_val_range r). pose proof (byte_val_range g).
  pose proof (byte_val_range b).
  rewrite <- move_payload_value.
  replace (Z.shiftl (byte_val g) 16) with (Z.shiftl (Z.shiftl (byte_val g) 8) 8)
    by (rewrite Z.shiftl_shiftl by lia; reflexivity).
  replace (Z.shiftl (byte_val b) 24)
    with (Z.shiftl (Z.shiftl (byte_val b) 16) 8)
    by (rewrite Z.shiftl_shiftl by lia; reflexivity).
  rewrite <- !Z.shiftl_lor. rewrite Z.lor_comm.
  rewrite lor_shiftl_add by lia. lia.
Qed.

(** X14. An RGB pair (control code 19) read from the string: the three
    bytes after the code are the background, the next three the foreground,
    each packed as [16 + 256 * (c0 + 256 * c1 + 65536 * c2)], so the low
    byte is always 0x10 and the value is below [2^32]; the seventh byte,
    the offset, is dropped by the constructor. The record spans 8 bytes. *)
Theorem parse_turn_rgb_packed p :
  0 <= index p -> index p + 7 < len (string p) ->
  index p + 7 < max_length p ->
  byte_at (string p) (index p) = x13 ->
  let i := index p in
  let at_ := fun k => byte_val (byte_at (string p) (i + k)) in
  let bg_ := 16 + 256 * (at_ 1 + 256 * at_ 2 + 65536 * at_ 3) in
  let fg_ := 16 + 256 * (at_ 4 + 256 * at_ 5 + 65536 * at_ 6) in
  parse_turn p
  = Continue (append (set_index p (i + 8))
                (FontControlRGB i (i + 8) (Some fg_) (Some bg_) None)) /\
  bg_ mod 256 = 16 /\ fg_ mod 256 = 16 /\
  0 <= bg_ < 2 ^ 32 /\ 0 <= fg_ < 2 ^ 32.
Proof.
  intros H0 Hlen Hmax Hop i at_ bg_ fg_. split.
  - unfold parse_turn. read_on. rewrite Hop.
    change (byte_val x13) with 19. cbn [Z.eqb orb Pos.eqb].
    do 7 read_on. rewrite !rgb_value.
    unfold FontControlRGB_init. cbn [fst snd]. norm_plus. reflexivity.
  - subst bg_ fg_ at_. cbv beta.
    pose proof (byte_val_range (byte_at (string p) (i + 1))).
    pose proof (byte_val_range (byte_at (string p) (i + 2))).
    pose proof (byte_val_range (byte_at (string p) (i + 3))).
    pose proof (byte_val_range (byte_at (string p) (i + 4))).
    pose proof (byte_val_range (byte_at (string p) (i + 5))).
    pose proof (byte_val_range (byte_at (string p) (i + 6))).
    repeat split; try lia;
      match goal with
      | |- (16 + 256 * ?v) mod 256 = 16 =>
          replace (16 + 256 * v) with (16 + v * 256) by lia;
          rewrite Z.mod_add by lia; reflexivity
      end.
Qed.

End Parser_records.

(** [parse(b'Hi\x1a\x01!')] on a new parser. *)
Lemma parse_records_tile_witness :
  exists r, parse new_parser [x48; x69; x1a; x01; x21] None = Some r /\
    forall p', r = Ok p' ->
      exists e, tiles 0 (sequence p') e /\ e <= index p' <= e + 1.
Proof.
  apply (parse_records_tile new_parser [x48; x69; x1a; x01; x21] None).
  reflexivity.
Defined.

Lemma parse_strings_from_buffer_witness :
  exists r, parse new_parser [x48; x69; x1a; x01; x21] None = Some r /\
    forall p', r = Ok p' ->
      Forall (string_from [x48; x69; x1a; x01; x21]) (sequence p').
Proof.
  apply (parse_strings_from_buffer new_parser [x48; x69; x1a; x01; x21]
           None).
  reflexivity.
Defined.

Lemma nskipped_controls_not_negative_witness :
  exists r, parse new_parser [x48; x69; x1a; x01; x21] None = Some r /\
    forall p', r = Ok p' ->
      0 <= nskipped_controls p' /\ len (simple_string p') <= index p'.
Proof.
  apply (nskipped_controls_not_negative new_parser
           [x48; x69; x1a; x01; x21] None).
  reflexivity.
Defined.

(** [parse(b'Hi\n!')]: the run [b'Hi'] ends at the terminator 10. *)
Lemma parse_printable_run_witness :
  exists p',
    parse new_parser ([x48; x69] ++ [x0a; x21]) None = Some (Ok p') /\
    sequence p' = sequence new_parser ++ [FontControlString 0 2 [x48; x69]] /\
    index p' = 2.
Proof.
  apply (parse_printable_run new_parser [x48; x69] [x0a; x21] None).
  - reflexivity.
  - discriminate.
  - repeat constructor; unfold byte_val; cbn; lia.
  - cbn; lia.
  - right; right. exists x0a, [x21]. split; [reflexivity|].
    right; left. reflexivity.
Defined.

(** The word [b'\xfe\xff\xff\xff'] at index 0: 4294967294, or -2 signed. *)
Lemma read_word_value_witness :
  let p := {| sequence := []; string := [xfe; xff; xff; xff]; index := 0;
              max_length := 1048576 |} : FontControlParser in
  read_word p false = Ok (Some 4294967294, set_index p 4) /\
  read_signedword p = Ok (Some (-2), set_index p 4) /\
  0 <= 4294967294 < 2 ^ 32.
Proof.
  cbv zeta.
  apply (read_word_value
           {| sequence := []; string := [xfe; xff; xff; xff]; index := 0;
              max_length := 1048576 |}); cbn; lia.
Defined.

(** The underline of the repository's tests, [b'\x19\xf0\x20']: position
    -16, thickness 32. *)
Lemma parse_turn_underline_signed_witness :
  let p := {| sequence := []; string := [x19; xf0; x20]; index := 0;
              max_length := 1048576 |} : FontControlParser in
  parse_turn p
  = Continue (append (set_index p 3) (FontControlUnderline 0 3 (-16) 32)) /\
  -128 <= -16 <= 127 /\ (-16) mod 256 = 240.
Proof.
  cbv zeta.
  apply (parse_turn_underline_signed
           {| sequence := []; string := [x19; xf0; x20]; index := 0;
              max_length := 1048576 |}); try (cbn; lia). reflexivity.
Defined.

(** The RGB pair of the repository's tests,
    [b'\x13\x00\x00\x00\xff\x00\x00\x00']: background 0x10, foreground
    0xff10. *)
Lemma parse_turn_rgb_packed_witness :
  let p := {| sequence := [];
              string := [x13; x00; x00; x00; xff; x00; x00; x00];
              index := 0; max_length := 1048576 |} : FontControlParser in
  parse_turn p
  = Continue (append (set_index p 8)
                (FontControlRGB 0 8 (Some 65296) (Some 16) None)) /\
  16 mod 256 = 16 /\ 65296 mod 256 = 16 /\
  0 <= 16 < 2 ^ 32 /\ 0 <= 65296 < 2 ^ 32.
Proof.
  cbv zeta.
  apply (parse_turn_rgb_packed
           {| sequence := [];
              string := [x13; x00; x00; x00; xff; x00; x00; x00];
              index := 0; max_length := 1048576 |}); try (cbn; lia).
  reflexivity.
Defined.

(** An index of 8 stays at 8. *)
Lemma align_next_multiple_witness :
  let p := {| sequence := @nil (@FontControl spec_structs);
              string := []; index := 8; max_length := 1048576 |} in
  index p mod 4 = 0 /\ index (align p) = index p.
Proof.
  cbv zeta. split; [reflexivity|].
  apply (proj2 (proj2 (align_next_multiple
           {| sequence := @nil (@FontControl spec_structs);
              string := []; index := 8; max_length := 1048576 |}))).
  reflexivity.
Defined.

(** ** Splitting and spacing keep the text *)

Section Sequence_text.

Context {structs : Structs}.

Lemma simple_string_of_app (l l' : list FontControl) :
  simple_string_of (l ++ l') = simple_string_of l ++ simple_string_of l'.
Proof. unfold simple_string_of. apply flat_map_app. Qed.

Lemma simple_string_of_cons (fc : FontControl) (l : list FontControl) :
  simple_string_of (fc :: l) = simple_string_of [fc] ++ simple_string_of l.
Proof. apply (simple_string_of_app [fc] l). Qed.

Lemma starts_with_app (sep s : bytes) :
  starts_with sep s = true -> exists s', s = sep ++ s'.
Proof.
  revert s. induction sep as [|a sep IH]; intros s H; [exists s; reflexivity|].
  destruct s as [|b s]; [discriminate|]. cbn [starts_with] in H.
  apply andb_true_iff in H. destruct H as [Hab Hs].
  apply Byte.byte_dec_bl in Hab. subst b.
  destruct (IH s Hs) as [s' ->]. exists s'. reflexivity.
Qed.

Lemma split_from_skip (sep t : bytes) :
  forall (s cur : bytes),
    split_from sep (t ++ s) (length t) cur = split_from sep s 0 cur.
Proof.
  induction t as [|a t IH]; intros s cur; [reflexivity|].
  cbn [app length split_from]. apply IH.
Qed.

Lemma split_from_not_empty (sep s : bytes) :
  forall (skip : nat) (cur : bytes), split_from sep s skip cur <> [].
Proof.
  induction s as [|b s IH]; intros skip cur; cbn [split_from];
    [discriminate|].
  destruct skip; [|apply IH]. destruct (starts_with sep (b :: s));
    [discriminate | apply IH].
Qed.

Lemma bytes_join_cons (sep a : bytes) (rest : list bytes) :
  rest <> [] -> bytes_join sep (a :: rest) = a ++ sep ++ bytes_join sep rest.
Proof. destruct rest; [contradiction | reflexivity]. Qed.

(** Joining what [split] gives with the separator gives the string back. *)
Lemma split_from_join (sep : bytes) (n : nat) :
  sep <> [] ->
  forall (s cur : bytes),
    (length s <= n)%nat ->
    bytes_join sep (split_from sep s 0 cur) = cur ++ s.
Proof.
  intros Hsep. induction n as [|n IH]; intros s cur Hn.
  - destruct s; [|cbn in Hn; lia]. cbn. symmetry. apply app_nil_r.
  - destruct s as [|b s]; [cbn; symmetry; apply app_nil_r|].
    cbn [split_from].
    destruct (starts_with sep (b :: s)) eqn:E.
    + destruct (starts_with_app _ _ E) as [s' Hs'].
      destruct sep as [|c sep']; [contradiction|].
      cbn [app] in Hs'. injection Hs' as <- ->.
      match goal with
      | |- context [(length (?a :: ?l) - 1)%nat] =>
          replace (length (a :: l) - 1)%nat with (length l)
            by (cbn [length]; lia)
      end.
      rewrite split_from_skip.
      rewrite bytes_join_cons by apply split_from_not_empty.
      rewrite IH.
      * cbn [app]. reflexivity.
      * cbn [length] in Hn. rewrite length_app in Hn. lia.
    + rewrite IH by (cbn [length] in Hn; lia).
      rewrite <- app_assoc. reflexivity.
Qed.

Lemma bytes_split_join (s sep : bytes) :
  sep <> [] -> bytes_join sep (bytes_split s sep) = s.
Proof.
  intros Hsep. unfold bytes_split.
  rewrite (split_from_join sep (length s) Hsep s []); [reflexivity | lia].
Qed.

Lemma concat_bytes_each (s : bytes) : concat (bytes_each s) = s.
Proof.
  induction s as [|b s IH]; [reflexivity|].
  cbn [bytes_each map concat app]. f_equal. exact IH.
Qed.

Lemma simple_string_of_piece (i j : Z) (s : bytes) :
  simple_string_of (if nonempty s then [FontControlString i j s] else []) = s.
Proof.
  destruct s as [|b s]; [reflexivity|].
  cbn [nonempty simple_string_of flat_map]. apply app_nil_r.
Qed.

Lemma split_pieces_every_text (parts : list bytes) :
  forall (start nparts part offset : Z),
    simple_string_of (split_pieces start SplitEvery nparts part parts offset)
    = concat parts.
Proof.
  induction parts as [|s parts IH]; intros start nparts part offset;
    [reflexivity|].
  cbn [split_pieces concat].
  rewrite simple_string_of_app, simple_string_of_piece, IH. reflexivity.
Qed.

Lemma split_pieces_on_text (sep : bytes) (parts : list bytes) :
  forall (start nparts part offset : Z),
    nparts = part + len parts ->
    simple_string_of
      (split_pieces start (SplitOn sep) nparts part parts offset)
    = bytes_join sep parts.
Proof.
  induction parts as [|s parts IH]; intros start nparts part offset Hn;
    [reflexivity|].
  cbn [split_pieces]. rewrite len_cons in Hn.
  pose proof (len_nonneg parts) as Hp.
  destruct parts as [|s' parts].
  - change (len (@nil bytes)) with 0 in Hn.
    replace (part =? nparts - 1) with true by lia. cbn [negb].
    rewrite simple_string_of_app, simple_string_of_piece.
    cbn [split_pieces simple_string_of flat_map bytes_join].
    apply app_nil_r.
  - rewrite len_cons in Hn, Hp. pose proof (len_nonneg parts).
    replace (part =? nparts - 1) with false by lia. cbn [negb].
    rewrite simple_string_of_app, simple_string_of_piece.
    rewrite simple_string_of_cons.
    rewrite IH by (rewrite len_cons; lia).
    rewrite (bytes_join_cons sep s (s' :: parts)) by discriminate.
    cbn [simple_string_of flat_map]. rewrite app_nil_r. reflexivity.
Qed.

(** [_apply_splits] keeps the string content. *)
Lemma _apply_splits_text (seq : list FontControl)
  (split_char : option SplitChar) :
  simple_string_of (_apply_splits seq split_char) = simple_string_of seq.
Proof.
  induction seq as [|ctrl seq IH]; [reflexivity|].
  cbn [_apply_splits].
  rewrite (simple_string_of_cons ctrl seq).
  assert (Hsame : simple_string_of (ctrl :: _apply_splits seq split_char)
                  = simple_string_of [ctrl] ++ simple_string_of seq)
    by (rewrite simple_string_of_cons, IH; reflexivity).
  destruct ctrl, split_char as [sc|]; try exact Hsame.
  destruct (split_char_bool (Some sc)) eqn:Hb; [|exact Hsame].
  match goal with
  | |- context [if ?c then _ else _] => destruct c
  end; [exact Hsame|].
  rewrite simple_string_of_app, IH. f_equal.
  cbn [simple_string_of flat_map]. rewrite app_nil_r.
  destruct sc as [|sep].
  - rewrite split_pieces_every_text. apply concat_bytes_each.
  - rewrite split_pieces_on_text by lia.
    apply bytes_split_join. cbn [split_char_bool] in Hb.
    destruct sep; [discriminate Hb | discriminate].
Qed.

Lemma spaced_pieces_chars_text (sp : FontSpacing) (parts : list bytes) :
  forall (start nparts part offset : Z),
    simple_string_of
      (spaced_pieces start sp false nparts part parts offset)
    = concat parts.
Proof.
  induction parts as [|s parts IH]; intros start nparts part offset;
    [reflexivity|].
  cbn [spaced_pieces andb negb concat].
  destruct s as [|b s]; cbn [nonempty negb]; [apply IH|].
  rewrite simple_string_of_cons, simple_string_of_cons, simple_string_of_app.
  rewrite IH.
  destruct (_ && _); cbn [simple_string_of flat_map app];
    rewrite !app_nil_r; reflexivity.
Qed.

Lemma spaced_pieces_words_text (sp : FontSpacing) (parts : list bytes) :
  forall (start nparts part offset : Z),
    nparts = part + len parts ->
    simple_string_of
      (spaced_pieces start sp true nparts part parts offset)
    = bytes_join [x20] parts.
Proof.
  induction parts as [|s parts IH]; intros start nparts part offset Hn;
    [reflexivity|].
  cbn [spaced_pieces andb]. rewrite len_cons in Hn.
  destruct parts as [|s' parts].
  - change (len (@nil bytes)) with 0 in Hn.
    replace (part =? nparts - 1) with true by lia. cbn [negb].
    destruct s as [|b s]; cbn [nonempty negb]; [reflexivity|].
    rewrite last_byte_never_space. cbn [app].
    cbn [spaced_pieces simple_string_of flat_map bytes_join].
    apply app_nil_r.
  - rewrite len_cons in Hn. pose proof (len_nonneg parts).
    replace (part =? nparts - 1) with false by lia. cbn [negb].
    replace (nonempty (s ++ [x20])) with true by (destruct s; reflexivity).
    cbn [negb]. rewrite last_byte_never_space. cbn [app].
    rewrite simple_string_of_cons.
    rewrite IH by (rewrite len_cons; lia).
    rewrite (bytes_join_cons [x20] s (s' :: parts)) by discriminate.
    cbn [simple_string_of flat_map]. rewrite app_nil_r, <- app_assoc.
    reflexivity.
Qed.

Lemma space_string_text (start : Z) (s : bytes) (sp : FontSpacing) :
  simple_string_of (space_string start s sp) = s.
Proof.
  unfold space_string. destruct (_ || _).
  - rewrite spaced_pieces_chars_text. apply concat_bytes_each.
  - rewrite spaced_pieces_words_text by lia.
    apply bytes_split_join. discriminate.
Qed.

(** X16. Splitting and spacing never change the text: for every sequence,
    spacing and split character, the string content of what
    [apply_spacing] yields (its String records, one after the other) is the
    string content of the sequence. *)
Theorem apply_spacing_keeps_text (seq : list FontControl)
  (spacing : option FontSpacing) (split_char : option SplitChar) :
  simple_string_of (apply_spacing seq spacing split_char)
  = simple_string_of seq.
Proof.
  unfold apply_spacing. rewrite <- (_apply_splits_text seq split_char).
  induction (_apply_splits seq split_char) as [|ctrl l IH]; [reflexivity|].
  cbn [flat_map]. rewrite simple_string_of_app, simple_string_of_cons, IH.
  f_equal. destruct ctrl, spacing as [sp|]; try reflexivity.
  destruct (FontSpacing_bool sp); [|reflexivity].
  rewrite space_string_text. cbn [simple_string_of flat_map].
  symmetry. apply app_nil_r.
Qed.

Lemma _apply_splits_None (seq : list FontControl) :
  _apply_splits seq None = seq.
Proof.
  induction seq as [|ctrl seq IH]; [reflexivity|].
  cbn [_apply_splits]. rewrite IH. destruct ctrl; reflexivity.
Qed.

(** X15. With no split character and a spacing that is [None] or has all
    four offsets zero, [apply_spacing] yields the sequence as it is. *)
Theorem apply_spacing_identity (seq : list FontControl)
  (spacing : option FontSpacing) :
  spacing_bool spacing = false ->
  apply_spacing seq spacing None = seq.
Proof.
  intros Hfalse. unfold apply_spacing. rewrite _apply_splits_None.
  induction seq as [|ctrl seq IH]; [reflexivity|].
  cbn [flat_map]. rewrite IH.
  destruct ctrl, spacing as [sp|]; try reflexivity.
  cbn [spacing_bool] in Hfalse. rewrite Hfalse. reflexivity.
Qed.

Lemma split_pieces_spans (sc : SplitChar) (parts : list bytes) :
  match sc with SplitOn sep => len sep = 1 | SplitEvery => True end ->
  forall (start nparts part offset : Z),
    Forall string_span_ok (split_pieces start sc nparts part parts offset).
Proof.
  intros Hone.
  induction parts as [|s parts IH]; intros start nparts part offset;
    cbn [split_pieces]; [constructor|].
  assert (Hpiece : Forall string_span_ok
            (if nonempty s
             then [FontControlString
                     (fst (start + offset, start + offset + len s))
                     (snd (start + offset, start + offset + len s)) s]
             else [])).
  { destruct (nonempty s) eqn:E; repeat constructor.
    cbn [string_span_ok fst snd]. lia. }
  destruct sc as [|sep]; [|destruct (negb _)];
    apply Forall_app; split; try exact Hpiece; try apply IH.
  constructor; [|apply IH]. cbn [string_span_ok fst snd]. lia.
Qed.

Lemma _apply_splits_spans (seq : list FontControl)
  (split_char : option SplitChar) :
  one_byte_split split_char ->
  Forall string_span_ok seq ->
  Forall string_span_ok (_apply_splits seq split_char).
Proof.
  intros Hone.
  induction 1 as [|ctrl seq Hc Hseq IH]; cbn [_apply_splits]; [constructor|].
  destruct ctrl, split_char as [sc|]; try (constructor; assumption).
  destruct (split_char_bool (Some sc)) eqn:Hb; [|constructor; assumption].
  destruct (len _ =? 1); [constructor; assumption|].
  apply Forall_app. split; [|exact IH].
  apply split_pieces_spans. destruct sc as [|sep]; [exact I|].
  cbn [one_byte_split split_char_bool] in *.
  destruct sep as [|c sep]; [discriminate|].
  rewrite len_cons in *. pose proof (len_nonneg sep). lia.
Qed.

Lemma spaced_pieces_spans (sp : FontSpacing) (word_split : bool)
  (parts : list bytes) :
  forall (start nparts part offset : Z),
    Forall string_span_ok
      (spaced_pieces start sp word_split nparts part parts offset).
Proof.
  induction parts as [|s parts IH]; intros start nparts part offset;
    cbn [spaced_pieces]; [constructor|].
  destruct (negb (nonempty _)); [apply IH|].
  constructor; [cbn [string_span_ok fst snd]; lia|].
  apply Forall_app. split; [|apply IH].
  destruct (negb word_split).
  - constructor; [exact I|]. destruct (_ && _); repeat constructor.
  - destruct (py_eq _ _); repeat constructor.
Qed.

(** X17. [apply_spacing] keeps the spans of strings right: when every
    String record of the sequence has [index_end - index_start ==
    len(string)] and the split character is [None], [-1] or a single byte,
    every String record it yields has it too (the pieces of a string are
    given the spans of their bytes). *)
Theorem apply_spacing_keeps_spans (seq : list FontControl)
  (spacing : option FontSpacing) (split_char : option SplitChar) :
  one_byte_split split_char ->
  Forall string_span_ok seq ->
  Forall string_span_ok (apply_spacing seq spacing split_char).
Proof.
  intros Hone Hseq. unfold apply_spacing.
  apply (_apply_splits_spans seq split_char Hone) in Hseq.
  induction Hseq as [|ctrl l Hc Hl IH]; cbn [flat_map]; [constructor|].
  apply Forall_app. split; [|exact IH].
  destruct ctrl, spacing as [sp|]; try (constructor; [assumption|constructor]).
  destruct (FontSpacing_bool sp); [|repeat constructor; assumption].
  unfold space_string. destruct (_ || _); apply spaced_pieces_spans.
Qed.

End Sequence_text.

(** A spacing with all offsets zero, on [b'hi'] and a move. *)
Lemma apply_spacing_identity_witness :
  apply_spacing
    [FontControlString 0 2 [x68; x69]; FontControlMove 2 6 5 0]
    (Some (FontSpacing_init None None)) None
  = [@FontControlString spec_structs 0 2 [x68; x69]; FontControlMove 2 6 5 0].
Proof.
  apply (apply_spacing_identity
           [@FontControlString spec_structs 0 2 [x68; x69];
            FontControlMove 2 6 5 0]
           (Some (FontSpacing_init None None))).
  reflexivity.
Defined.

(** [b'a b'] split on the space with character spacing. *)
Lemma apply_spacing_keeps_spans_witness :
  Forall string_span_ok
    (apply_spacing [@FontControlString spec_structs 0 3 [x61; x20; x62]]
       (Some (FontSpacing_init None (Some (2, 0))))
       (Some (SplitOn [x20]))).
Proof.
  apply (apply_spacing_keeps_spans
           [@FontControlString spec_structs 0 3 [x61; x20; x62]]
           (Some (FontSpacing_init None (Some (2, 0))))
           (Some (SplitOn [x20]))).
  - cbn. lia.
  - repeat constructor.
Defined.

(** ** Sizing stays within the limits *)

Section Sizing_limits.

Context {structs : Structs} {hooks : Hooks}.

(** The walk again, for a property [P] that the context has each time a
    record has been applied and has fitted. *)
Lemma size_walk_fitting (P : FontContext -> Prop) (Q : FontControl -> Prop)
  (recurse : FontContext -> list FontControl -> option (result size_result))
  (split_char : option SplitChar) :
  (forall c, P c -> limits_set c) ->
  (forall ctrl c, Q ctrl -> P c ->
     beyond_limits (FontControl_apply ctrl c) = Ok false ->
     P (FontControl_apply ctrl c)) ->
  (forall c ctrl, P c -> Q ctrl -> ~ short_string ctrl ->
     exists t c', recurse c [ctrl] = Some (Ok (t, c')) /\ P c') ->
  forall ctrls, Forall Q ctrls ->
  forall self lc lsp (a b n : Z), P self -> P lsp ->
    exists t c',
      size_walk recurse split_char ctrls self lc lsp a b n = Some (Ok (t, c'))
      /\ P c'.
Proof.
  intros Hlim Hstep Hrec ctrls Hall.
  induction Hall as [|ctrl ctrls Hq Hall IH]; intros self lc lsp a b n Hself Hlsp.
  - cbn [size_walk]. eauto.
  - cbn [size_walk]. unfold copy.
    destruct (beyond_limits_answers _
                (FontControl_apply_limits_set ctrl self (Hlim _ Hself)))
      as [bl Hbl].
    pose proof (Hstep ctrl self Hq Hself) as Hnext.
    destruct ctrl;
      match goal with
      | |- context [FontControlString ?i ?j ?s] => idtac
      | _ =>
          cbv beta iota zeta; rewrite Hbl; destruct bl;
          [ destruct (split_char_bool split_char && negb (is_minus_one split_char));
            [eauto | change (len (@nil byte) >? 1) with false; cbv iota; eauto]
          | match goal with
            | |- context [if ?c then _ else _] => destruct c
            end; apply IH; auto ]
      end.
    cbv beta iota zeta. rewrite Hbl. destruct bl.
    + destruct (split_char_bool split_char && negb (is_minus_one split_char));
        [eauto|].
      match goal with
      | |- context [len ?s >? 1] => destruct (len s >? 1) eqn:Hlen; [|eauto]
      end.
      destruct (Hrec self _ Hself Hq) as (t & c' & Hr & Hc').
      { cbn [short_string]. lia. }
      rewrite Hr. destruct t as [li ss]. eauto.
    + match goal with
      | |- context [if ?c then _ else _] => destruct c
      end; apply IH; auto.
Qed.

(** X19. Whatever the sequence, [size] leaves the context within its
    limits, provided the x limit is not negative (so that the starting
    point (0, 0) is within them): the call returns and the context it
    leaves is not beyond limits, in particular [x <= limitx]. This holds
    when a limit was passed, where the context is put back to the last
    split point or to the state before the record that did not fit. *)
Theorem size_stays_within_limits (self : FontContext)
  (seq : list FontControl) (spacing : option FontSpacing)
  (limits : option (Z * Z)) (split_char : option SplitChar) :
  let lx := match limits with None => 0x7FFFFFFF | Some (lx, _) => lx end in
  0 <= lx ->
  exists t self',
    size self seq spacing limits split_char false = Some (Ok (t, self')) /\
    beyond_limits self' = Ok false /\
    limitx self' = Some lx /\ x self' <= lx.
Proof.
  intros lx Hlx.
  set (P := fun c : FontContext =>
              limits_set c /\ beyond_limits c = Ok false /\
              limitx c = Some lx).
  assert (Hlim : forall c, P c -> limits_set c) by (intros c H; apply H).
  assert (Hstep : forall ctrl c, True -> P c ->
            beyond_limits (FontControl_apply ctrl c) = Ok false ->
            P (FontControl_apply ctrl c)).
  { intros ctrl c _ (Hl & _ & Hx) Hb. split; [|split].
    - apply FontControl_apply_limits_set. exact Hl.
    - exact Hb.
    - destruct (FontControl_apply_limits ctrl c) as [-> _]. exact Hx. }
  assert (Hend : forall c, P c -> x c <= lx).
  { intros c (_ & Hb & Hx). unfold beyond_limits in Hb. rewrite Hx in Hb.
    destruct (((lx >=? 0) && (x c >? lx)) || ((lx <? 0) && (x c >? lx)))
      eqn:E; [discriminate|]. lia. }
  assert (Hwalk : exists t self',
            size self seq spacing limits split_char false
            = Some (Ok (t, self')) /\ P self').
  { unfold size. cbn [size_depth negb]. unfold copy.
    assert (Hstart : P (size_reset self limits)).
    { split; [apply size_reset_limits_set|]. split.
      - unfold beyond_limits, size_reset. cbn.
        fold lx.
        replace (((lx >=? 0) && (0 >? lx)) || ((lx <? 0) && (0 >? lx)))
          with false by lia.
        destruct limits as [[? ly]|]; cbn; [|reflexivity].
        f_equal. lia.
      - reflexivity. }
    apply (size_walk_fitting P (fun _ => True) _ _ Hlim Hstep).
    - intros c ctrl Hc _ _. cbn [size_depth negb]. unfold copy.
      rewrite apply_spacing_None.
      apply (size_walk_fitting P (fun ctrl => True /\ short_string ctrl)
               _ _ Hlim).
      + intros ctrl0 c0 _ Hc0 Hb0. exact (Hstep ctrl0 c0 I Hc0 Hb0).
      + intros c0 ctrl0 _ [_ Hshort] Hlong. contradiction.
      + apply Forall_and; [apply Forall_forall; auto|].
        apply _apply_splits_every_short.
      + exact Hc.
      + exact Hc.
    - apply Forall_forall. auto.
    - exact Hstart.
    - exact Hstart. }
  destruct Hwalk as (t & self' & Hsize & HP).
  exists t, self'. split; [exact Hsize|].
  split; [apply HP|]. split; [apply HP | apply Hend; exact HP].
Qed.

(** X20. What [apply] leaves alone: no record changes the limits of the
    context, and a String, Move, Comment, Underline, MoveCharacter or
    MoveSpace record changes neither the colours, nor the font, nor the
    transform. *)
Theorem FontControl_apply_leaves (ctrl : FontControl) (c : FontContext) :
  limitx (FontControl_apply ctrl c) = limitx c /\
  limity (FontControl_apply ctrl c) = limity c /\
  (keeps_style ctrl = true -> same_style c (FontControl_apply ctrl c)).
Proof.
  destruct (FontControl_apply_limits ctrl c) as [Hx Hy].
  split; [exact Hx|]. split; [exact Hy|]. apply FontControl_apply_style.
Qed.

End Sizing_limits.

(** The sizing of the repository's test with limits: [b'words. lots'] with
    limits (64, 0) on a new context. *)
Lemma size_stays_within_limits_witness :
  exists t self',
    size base_context
      [FontControlString 0 11
         [x77; x6f; x72; x64; x73; x2e; x20; x6c; x6f; x74; x73]]
      None (Some (64, 0)) (Some (SplitOn [x20])) false
    = Some (Ok (t, self')) /\
    beyond_limits self' = Ok false /\
    limitx self' = Some 64 /\ x self' <= 64.
Proof.
  apply (size_stays_within_limits base_context
           [FontControlString 0 11
              [x77; x6f; x72; x64; x73; x2e; x20; x6c; x6f; x74; x73]]
           None (Some (64, 0)) (Some (SplitOn [x20]))).
  cbn. lia.
Defined.

(** A move applied to a new context. *)
Lemma FontControl_apply_leaves_witness :
  same_style base_context
    (FontControl_apply (FontControlMove 0 4 640 0) base_context).
Proof.
  exact (proj2 (proj2 (FontControl_apply_leaves (FontControlMove 0 4 640 0)
                         base_context)) eq_refl).
Defined.

(** ** Sizing when everything fits *)

Section Sizing_fits.

Context {structs : Structs} {hooks : Hooks}.



End Sizing_fits.


(** ** Edges of the parser *)

Section Parser_edges.

Context {structs : Structs}.

Implicit Types p : FontControlParser.

Ltac read_here :=
  rewrite read_byte_in by (cbn [index string max_length set_index]; lia);
  cbn [index string max_length set_index sequence].

(** X22. A control byte below 32 that [parse] does not know ends the loop
    with the byte consumed: the sequence stays as it is and the index is
    left one past that byte, not on it as for a terminator. *)
Theorem parse_turn_unknown_control p :
  0 <= index p -> index p < len (string p) -> index p < max_length p ->
  byte_val (byte_at (string p) (index p)) < 32 ->
  known_control (byte_val (byte_at (string p) (index p))) = false ->
  parse_turn p = Break (set_index p (index p + 1)).
Proof.
  intros H0 Hlen Hmax Hlow Hknown. unfold parse_turn. read_here.
  set (v := byte_val (byte_at (string p) (index p))) in *.
  unfold known_control in Hknown.
  repeat (apply orb_false_iff in Hknown; destruct Hknown as [Hknown ?]).
  repeat match goal with
         | H : (v =? ?k) = false |- _ => rewrite H; clear H
         end.
  cbn [orb].
  replace (v <? 32) with true by lia. reflexivity.
Qed.

Lemma gcol_bits (b : byte) :
  Z.land (byte_val b) 0x7f = byte_val b mod 128 /\
  (truthy (Z.land (byte_val b) 0x80) = (128 <=? byte_val b)).
Proof. destruct b; split; reflexivity. Qed.

(** X23. A single GCOL (control code 17) read from the string: the low 7
    bits of the payload byte are the colour, between 0 and 127; the record
    sets the background when the byte is 128 or more and the foreground
    otherwise, and leaves the other colour and the offset unset. *)
Theorem parse_turn_gcol_single p :
  0 <= index p -> index p + 1 < len (string p) ->
  index p + 1 < max_length p ->
  byte_at (string p) (index p) = x11 ->
  let i := index p in
  let b := byte_val (byte_at (string p) (i + 1)) in
  let gcol := b mod 128 in
  parse_turn p
  = Continue (append (set_index p (i + 2))
                (if 128 <=? b
                 then FontControlGCOL i (i + 2) None (Some gcol) None
                 else FontControlGCOL i (i + 2) (Some gcol) None None)) /\
  0 <= gcol <= 127.
Proof.
  intros H0 Hlen Hmax Hop i b gcol. split.
  - unfold parse_turn. read_here. rewrite Hop.
    change (byte_val x11) with 17. cbn [Z.eqb orb Pos.eqb].
    read_here.
    destruct (gcol_bits (byte_at (string p) (index p + 1))) as [-> ->].
    fold i. fold b. fold gcol.
    replace (i + 1 + 1) with (i + 2) by lia.
    destruct (128 <=? b); reflexivity.
  - subst gcol. pose proof (Z.mod_pos_bound b 128 ltac:(lia)). lia.
Qed.

(** X24. A matrix (control code 27 or 28) with fewer than three bytes left
    after the alignment, before the end of the string or before
    [max_length]: every [read_signedword] returns [None], dividing [None]
    by 65536.0 raises, and the turn ends in [TypeError]; no record is
    added, the parse does not stop quietly. *)
Theorem parse_turn_matrix_cut_short p :
  0 <= index p -> index p < len (string p) -> index p < max_length p ->
  byte_at (string p) (index p) = x1b \/ byte_at (string p) (index p) = x1c ->
  let aligned := index (align (set_index p (index p + 1))) in
  len (string p) < aligned + 3 \/ max_length p < aligned + 3 ->
  parse_turn p = Raised TypeError.
Proof.
  intros H0 Hlen Hmax Hop aligned Hshort.
  unfold parse_turn. read_here.
  assert (Hread : forall w, read_matrix (align (set_index p (index p + 1))) w
                            = Raise TypeError).
  { intros w. unfold read_matrix, read_signedword.
    destruct w;
      repeat (rewrite read_word_invalid by exact Hshort; cbn [bind]);
      reflexivity. }
  destruct Hop as [-> | ->];
    [ change (byte_val x1b) with 27 | change (byte_val x1c) with 28 ];
    cbn [Z.eqb orb Pos.eqb negb]; rewrite Hread; reflexivity.
Qed.

End Parser_edges.

(** The byte 1 at the start of [b'\x01abc']. *)
Lemma parse_turn_unknown_control_witness :
  let p := {| sequence := []; string := [x01; x61; x62; x63]; index := 0;
              max_length := 1048576 |} : FontControlParser in
  parse_turn p = Break (set_index p 1).
Proof.
  cbv zeta.
  apply (parse_turn_unknown_control
           {| sequence := []; string := [x01; x61; x62; x63]; index := 0;
              max_length := 1048576 |}); try (cbn; lia); reflexivity.
Defined.

(** [b'\x11\x83']: background colour 3. *)
Lemma parse_turn_gcol_single_witness :
  let p := {| sequence := []; string := [x11; x83]; index := 0;
              max_length := 1048576 |} : FontControlParser in
  parse_turn p
  = Continue (append (set_index p 2)
                (FontControlGCOL 0 2 None (Some 3) None)) /\
  0 <= 3 <= 127.
Proof.
  cbv zeta.
  apply (parse_turn_gcol_single
           {| sequence := []; string := [x11; x83]; index := 0;
              max_length := 1048576 |}); try (cbn; lia); reflexivity.
Defined.

(** [b'\x1b\x00\x00\x00\x01\x00']: two bytes left after the alignment. *)
Lemma parse_turn_matrix_cut_short_witness :
  parse_turn {| sequence := @nil (@FontControl spec_structs);
                string := [x1b; x00; x00; x00; x01; x00]; index := 0;
                max_length := 1048576 |}
  = Raised TypeError.
Proof.
  apply (parse_turn_matrix_cut_short
           {| sequence := @nil (@FontControl spec_structs);
              string := [x1b; x00; x00; x00; x01; x00]; index := 0;
              max_length := 1048576 |}); try (cbn; lia).
  left; reflexivity.
Defined.
